(** * The round-robin scheduler of oncall

    A shallow embedding of [src/oncall/scheduler/round-robin.py] and of the
    part of the populate/preview engine it plugs into, followed by the
    batching helpers and the answer assembly of the two on-call endpoints,
    [src/oncall/api/v0/service_oncall.py] and
    [src/oncall/api/v0/team_oncall.py].  The database the
    scheduler talks to through its cursor is a record of tables (lists of
    rows, in insertion order); every [cursor.execute] becomes a function on
    that record.  Python exceptions are the [Raise] outcomes of [result]. *)

From stdpp Require Import base decidable option list sorting numbers gmap strings.
From Stdlib Require Import ZArith Lia Ascii.

Local Open Scope Z_scope.

(** ** Outcomes of Python calls *)

Inductive exn : Set :=
| ValueError        (* min() of an empty sequence, list.index of a missing item *)
| IndexError        (* list subscript out of range *)
| HTTPBadRequest.   (* the invalid-start rejection of populate *)

Inductive result (A : Type) : Type :=
| Ok (a : A)
| Raise (e : exn).
Arguments Ok {A} a.
Arguments Raise {A} e.

(** Sequencing: an exception aborts what follows. *)
#[global] Instance result_bind : MBind result := λ A B k r,
  match r with
  | Ok a => k a
  | Raise e => Raise e
  end.
#[global] Instance result_ret : MRet result := λ A a, Ok a.
#[global] Instance result_fmap : FMap result := λ A B f r,
  match r with
  | Ok a => Ok (f a)
  | Raise e => Raise e
  end.

#[global] Instance exn_eq_dec : EqDecision exn.
Proof. solve_decision. Defined.

(** ** Python built-ins used by the scheduler *)

(** [min(xs)]: raises [ValueError] on an empty sequence. *)
Definition py_min (xs : list Z) : result Z :=
  match xs with
  | [] => Raise ValueError
  | x :: xs' => Ok (foldr Z.min x xs')
  end.

(** [xs.index(x)]: position of the first occurrence, [ValueError] if none. *)
Fixpoint py_index (x : Z) (xs : list Z) : result nat :=
  match xs with
  | [] => Raise ValueError
  | y :: xs' =>
      if decide (y = x) then Ok 0%nat
      else i ← py_index x xs'; Ok (S i)
  end.

(** [xs[i]] for a non-negative [i]. *)
Definition py_getitem (xs : list Z) (i : nat) : result Z :=
  match xs !! i with
  | Some x => Ok x
  | None => Raise IndexError
  end.

(** ** Tables *)

Record schedule_row := {
  sr_id : Z;
  sr_team_id : Z;
  sr_roster_id : Z;
  sr_role_id : Z;
  sr_auto_populate_threshold : Z;
  sr_advanced_mode : bool;
  sr_last_scheduled_user_id : option Z   (* NULL is [None] *)
}.

Record roster_user_row := {
  ru_roster_id : Z;
  ru_user_id : Z;
  ru_in_rotation : bool
}.

Record schedule_order_row := {
  so_schedule_id : Z;
  so_user_id : Z;
  so_priority : Z
}.

Record event_row := {
  ev_id : Z;                      (* AUTO_INCREMENT key *)
  ev_team_id : Z;
  ev_schedule_id : option Z;      (* NULL for manually created events *)
  ev_start : Z;
  ev_end : Z;
  ev_user_id : Z;
  ev_role_id : Z;
  ev_link_id : option nat         (* NULL for single-segment events *)
}.

Record database := {
  tbl_schedule : list schedule_row;
  tbl_roster_user : list roster_user_row;
  tbl_schedule_order : list schedule_order_row;
  tbl_event : list event_row
}.

(** What a cursor sees and changes: the tables, the AUTO_INCREMENT counter of
    [event], and how many link identifiers have been drawn so far. *)
Record state := {
  db : database;
  auto_increment : Z;
  link_count : nat
}.

(** Modelled from the spec: [gen_link_id] of [oncall.utils], a module that is
    missing from the sources.  The spec calls its value a freshly generated
    link id; it is taken as a supply of pairwise distinct names, the [n]-th
    call returning the name [n]. *)
Definition gen_link_id (st : state) : nat * state :=
  (link_count st,
   {| db := db st; auto_increment := auto_increment st;
      link_count := S (link_count st) |}).

(** The [schedule] dictionary handed to the scheduler by its caller, and
    one entry of [future_events].  round-robin.py reads the keys [id],
    [team_id], [role_id] and [roster_id]; the template, its period and the
    horizon are what the inherited engine reads. *)
Record schedule := {
  s_id : Z;
  s_team_id : Z;
  s_role_id : Z;
  s_roster_id : Z;
  s_events : list (Z * Z);          (* template: (offset, duration) *)
  s_period : Z;                     (* length of one recurrence period *)
  s_auto_populate_threshold : Z     (* horizon, in days *)
}.

Record shift := { fe_start : Z; fe_end : Z }.

#[global] Instance schedule_row_eq_dec : EqDecision schedule_row.
Proof. solve_decision. Defined.
#[global] Instance event_row_eq_dec : EqDecision event_row.
Proof. solve_decision. Defined.
#[global] Instance shift_eq_dec : EqDecision shift.
Proof. solve_decision. Defined.

(** ** The engine the scheduler inherits from *)

Module Default.

(** The two methods of the base class that round-robin.py overrides and that
    the inherited [populate] and [preview] call through [self]. *)
Record methods := {
  find_next_user_id : schedule → list shift → database → result (option Z);
  create_events : Z → Z → Z → list shift → Z → bool → state → state
}.

(** Modelled from the spec: the recurrence expander of [default.Scheduler]
    (default.py is missing from the sources).  The number of periods,
    [ceil(H·86400/P)]. *)
Definition period_count (schedule : schedule) : nat :=
  Z.to_nat
    (Z.opp (Z.div (Z.opp (s_auto_populate_threshold schedule * 86400))
              (s_period schedule))).

(** Modelled from the spec: the [k]-th period of the expander,
    [S + k·P, S + (k+1)·P): one (start, end) interval per template segment,
    from [period_start + offset] through [+ offset + duration]. *)
Definition period (schedule : schedule) (start_time : Z) (k : nat)
    : list shift :=
  (λ seg, {| fe_start := start_time + Z.of_nat k * s_period schedule + seg.1;
             fe_end := start_time + Z.of_nat k * s_period schedule + seg.1 + seg.2 |})
    <$> s_events schedule.

(** Modelled from the spec: the periods for [k = 0 … ceil(H·86400/P) − 1],
    in chronological order. *)
Definition periods (schedule : schedule) (start_time : Z)
    : list (list shift) :=
  period schedule start_time <$> seq 0 (period_count schedule).

(** Modelled from the spec: the start validation of
    [default.Scheduler.populate] (default.py is missing from the sources):
    a start earlier than now minus the schedule's horizon is rejected. *)
Definition invalid_start (schedule : schedule) (start_time now : Z) : Prop :=
  start_time < now - s_auto_populate_threshold schedule * 86400.

#[global] Instance invalid_start_dec schedule start_time now :
  Decision (invalid_start schedule start_time now).
Proof. unfold invalid_start. apply _. Defined.

Section engine.
Context (self : methods).

(** Modelled from the spec: the loop of [default.Scheduler.populate]
    (default.py is missing from the sources) over the periods in
    chronological order:
    ask the strategy for the next user; with no candidate the period is
    left unassigned; otherwise hand the period's segments to the event
    writer.  An exception ends the run where it is raised. *)
Fixpoint schedule_periods (schedule : schedule) (ps : list (list shift))
    (st : state) : result unit * state :=
  match ps with
  | [] => (Ok (), st)
  | epoch :: ps' =>
      match find_next_user_id self schedule epoch (db st) with
      | Raise e => (Raise e, st)
      | Ok None => schedule_periods schedule ps' st
      | Ok (Some user_id) =>
          schedule_periods schedule ps'
            (create_events self (s_team_id schedule) (s_id schedule) user_id
               epoch (s_role_id schedule) true st)
      end
  end.

(** Modelled from the spec: the pipeline shared by the two entry points of
    [default.Scheduler] (default.py is missing from the sources): validate
    the start against the clock [now], then expand the template and assign
    the periods. *)
Definition pipeline (schedule : schedule) (start_time now : Z) (st : state)
    : result unit * state :=
  if decide (invalid_start schedule start_time now) then
    (Raise HTTPBadRequest, st)
  else schedule_periods schedule (periods schedule start_time) st.

(** Modelled from the spec: [default.Scheduler.populate] (default.py is
    missing from the sources); an [Ok] outcome stands for the final
    [connection.commit()]. *)
Definition populate (schedule : schedule) (start_time now : Z) (st : state)
    : result unit * state :=
  pipeline schedule start_time now st.

(** Modelled from the spec: [default.Scheduler.preview] (default.py is
    missing from the sources): the same pipeline, never committed; the
    would-be events are the rows the run appended to [event]. *)
Definition preview (schedule : schedule) (start_time now : Z) (st : state)
    : result (list event_row) * state :=
  let '(r, st') := pipeline schedule start_time now st in
  ((λ _, drop (length (tbl_event (db st))) (tbl_event (db st'))) <$> r, st').
End engine.

End Default.

(** ** The scheduler: [class Scheduler(default.Scheduler)] of round-robin.py *)

Module RoundRobin.

(** *** [guess_last_scheduled_user]

    The query, clause by clause.  [WHERE]: *)
Definition qualifies (schedule : schedule) (start : Z) (roster : list Z)
    (e : event_row) : Prop :=
  ev_team_id e = s_team_id schedule ∧ ev_user_id e ∈ roster ∧
  ev_start e ≤ start ∧ ev_role_id e = s_role_id schedule.

#[global] Instance qualifies_dec schedule start roster e :
  Decision (qualifies schedule start roster e).
Proof. unfold qualifies. apply _. Defined.

(** [MAX(start)] over one non-empty group. *)
Definition max_start (evs : list event_row) : Z :=
  match ev_start <$> evs with
  | [] => 0
  | s :: ss => foldr Z.max s ss
  end.

(** [SELECT user_id, MAX(start) AS last_start ... GROUP BY user_id]: one row
    per user, groups in the order in which the users first appear. *)
Definition group_by_user (evs : list event_row) : list (Z * Z) :=
  (λ u, (u, max_start (filter (λ e, ev_user_id e = u) evs)))
    <$> remove_dups (ev_user_id <$> evs).

(** [ORDER BY last_start DESC].  SQL leaves the order of rows with equal
    [last_start] open; the sort used here keeps them in group order. *)
Definition last_start_desc (a b : Z * Z) : Prop := b.2 ≤ a.2.

#[global] Instance last_start_desc_dec a b : Decision (last_start_desc a b).
Proof. unfold last_start_desc. apply _. Defined.

Definition guess_last_scheduled_user (schedule : schedule) (start : Z)
    (roster : list Z) (d : database) : option Z :=
  let t := merge_sort last_start_desc
             (group_by_user
                (filter (qualifies schedule start roster) (tbl_event d))) in
  (* LIMIT 1; rowcount != 0 *)
  match t with
  | row :: _ => Some row.1
  | [] => None
  end.

(** *** [find_next_user_id] *)

(** [SELECT user_id FROM roster_user WHERE roster_id = %s AND in_rotation =
    TRUE], collected into a set. *)
Definition roster_users (schedule : schedule) (d : database) : gset Z :=
  list_to_set
    (ru_user_id <$>
       filter (λ r, ru_roster_id r = s_roster_id schedule ∧
                    ru_in_rotation r = true)
              (tbl_roster_user d)).

(** [ORDER BY priority, user_id]. *)
Definition priority_order (a b : schedule_order_row) : Prop :=
  so_priority a < so_priority b ∨
  (so_priority a = so_priority b ∧ so_user_id a ≤ so_user_id b).

#[global] Instance priority_order_dec a b : Decision (priority_order a b).
Proof. unfold priority_order. apply _. Defined.

(** [SELECT user_id, priority FROM schedule_order WHERE schedule_id = %s
    ORDER BY priority, user_id]. *)
Definition schedule_order (schedule : schedule) (d : database)
    : list schedule_order_row :=
  merge_sort priority_order
    (filter (λ r, so_schedule_id r = s_id schedule) (tbl_schedule_order d)).

(** [roster = [row['user_id'] for row in cursor if row['user_id'] in
    roster_users]]: first the rows that pass the test, then their users. *)
Definition roster_rows (schedule : schedule) (d : database)
    : list schedule_order_row :=
  filter (λ r, so_user_id r ∈ roster_users schedule d)
         (schedule_order schedule d).

Definition roster (schedule : schedule) (d : database) : list Z :=
  so_user_id <$> roster_rows schedule d.

(** [SELECT last_scheduled_user_id FROM schedule WHERE id = %s]. *)
Definition select_last_scheduled_user_id (schedule : schedule) (d : database)
    : list (option Z) :=
  sr_last_scheduled_user_id <$>
    filter (λ r, sr_id r = s_id schedule) (tbl_schedule d).

(** [last_user in roster], where [last_user] may be [None]. *)
Definition in_roster (last_user : option Z) (roster : list Z) : Prop :=
  match last_user with
  | Some u => u ∈ roster
  | None => False
  end.

#[global] Instance in_roster_dec last_user roster :
  Decision (in_roster last_user roster).
Proof. destruct last_user; simpl; apply _. Defined.

(** The last two lines of the function:
    [roster[(roster.index(last_user) + 1) % len(roster)]]; [None] is no
    element of a list of identifiers. *)
Definition next_after (roster : list Z) (last_user : option Z) : result Z :=
  last_idx ← match last_user with
             | Some u => py_index u roster
             | None => Raise ValueError
             end;
  py_getitem roster ((last_idx + 1) `mod` length roster)%nat.

Definition find_next_user_id (schedule : schedule) (future_events : list shift)
    (d : database) : result (option Z) :=
  let roster := roster schedule d in
  match select_last_scheduled_user_id schedule d, roster with
  | [], _ | _, [] =>
      (* Schedule doesn't exist, or roster is empty. Bail *)
      Ok None
  | last_user :: _, _ :: _ =>
      if decide (in_roster last_user roster) then
        Some <$> next_after roster last_user
      else
        (* If this user is no longer in the roster or last_scheduled_user is
           NULL, try to find the last scheduled user using the calendar *)
        start ← py_min (fe_start <$> future_events);
        match guess_last_scheduled_user schedule start roster d with
        | None =>
            (* If this doesn't work, return the first user in the roster *)
            Some <$> py_getitem roster 0
        | Some u => Some <$> next_after roster (Some u)
        end
  end.

(** *** [create_events] *)

(** [INSERT INTO event (team_id, schedule_id, start, end, user_id, role_id
    [, link_id]) VALUES (...)]: the row is appended and takes the next
    AUTO_INCREMENT key. *)
Definition insert_event (team_id schedule_id start end_ user_id role_id : Z)
    (link_id : option nat) (st : state) : state :=
  let row := {| ev_id := auto_increment st; ev_team_id := team_id;
                ev_schedule_id := Some schedule_id; ev_start := start;
                ev_end := end_; ev_user_id := user_id; ev_role_id := role_id;
                ev_link_id := link_id |} in
  {| db := {| tbl_schedule := tbl_schedule (db st);
              tbl_roster_user := tbl_roster_user (db st);
              tbl_schedule_order := tbl_schedule_order (db st);
              tbl_event := tbl_event (db st) ++ [row] |};
     auto_increment := auto_increment st + 1;
     link_count := link_count st |}.

Definition set_last_scheduled_user_id (v : option Z) (r : schedule_row)
    : schedule_row :=
  {| sr_id := sr_id r; sr_team_id := sr_team_id r;
     sr_roster_id := sr_roster_id r; sr_role_id := sr_role_id r;
     sr_auto_populate_threshold := sr_auto_populate_threshold r;
     sr_advanced_mode := sr_advanced_mode r;
     sr_last_scheduled_user_id := v |}.

(** [UPDATE schedule SET last_scheduled_user_id = %s]: the statement has no
    [WHERE] clause, so every row of the table is written. *)
Definition update_last_scheduled_user_id (v : option Z) (st : state) : state :=
  {| db := {| tbl_schedule := set_last_scheduled_user_id v <$> tbl_schedule (db st);
              tbl_roster_user := tbl_roster_user (db st);
              tbl_schedule_order := tbl_schedule_order (db st);
              tbl_event := tbl_event (db st) |};
     auto_increment := auto_increment st;
     link_count := link_count st |}.

(** [skip_match] is accepted and never consulted. *)
Definition create_events (team_id schedule_id user_id : Z)
    (events : list shift) (role_id : Z) (skip_match : bool) (st : state)
    : state :=
  let st' :=
    match events with
    | [event] =>
        insert_event team_id schedule_id (fe_start event) (fe_end event)
          user_id role_id None st
    | _ =>
        let '(link_id, st1) := gen_link_id st in
        foldl (λ s event,
                 insert_event team_id schedule_id (fe_start event)
                   (fe_end event) user_id role_id (Some link_id) s)
              st1 events
    end in
  update_last_scheduled_user_id (Some user_id) st'.


(** *** [populate] and [preview] *)

(** [class Scheduler(default.Scheduler)]: the overriding methods. *)
Definition self : Default.methods :=
  {| Default.find_next_user_id := find_next_user_id;
     Default.create_events := create_events |}.

(** Both entry points null the cursor and then call the method they
    override; [with_cursor_reset] is that shape over an arbitrary inherited
    method.  [now] is the clock the inherited method reads. *)
Definition with_cursor_reset {R}
    (super_populate : schedule → Z → Z → state → result R * state)
    (schedule : schedule) (start_time now : Z) (st : state)
    : result R * state :=
  (* Null last_scheduled_user to force find_next_user to determine that from
     the calendar *)
  super_populate schedule start_time now
    (update_last_scheduled_user_id None st).

Definition populate : schedule → Z → Z → state → result unit * state :=
  with_cursor_reset (Default.populate self).

Definition preview
    : schedule → Z → Z → state → result (list event_row) * state :=
  with_cursor_reset (Default.preview self).

End RoundRobin.

(** ** The two requests *)

Module Api.

(** Modelled from the spec: the answers of the two requests (the API layer is
    missing from the sources): 200 with a body, 400 for an invalid start,
    500 for any other exception. *)
Inductive response :=
| Http200 (body : list event_row)
| Http400
| Http500.

(** Modelled from the spec: the transaction around one request (the API layer
    is missing from the sources).  All access of one invocation goes
    through one transaction; dropping it restores the tables, while the
    counters that handed out identifiers keep their values. *)
Definition rollback (before after : state) : state :=
  {| db := db before; auto_increment := auto_increment after;
     link_count := link_count after |}.

(** Modelled from the spec: [POST populate(schedule_id, start) -> 200 {} |
    400 invalid-start] (the API layer is missing from the sources); a run
    that raises is not committed. *)
Definition post_populate (schedule : schedule) (start_time now : Z)
    (st : state) : response * state :=
  match RoundRobin.populate schedule start_time now st with
  | (Ok _, st') => (Http200 [], st')
  | (Raise HTTPBadRequest, st') => (Http400, rollback st st')
  | (Raise _, st') => (Http500, rollback st st')
  end.

(** Modelled from the spec: [GET preview(schedule_id, start, ...) -> 200
    [events]] (the API layer is missing from the sources); the transaction
    is always rolled back. *)
Definition get_preview (schedule : schedule) (start_time now : Z)
    (st : state) : response * state :=
  match RoundRobin.preview schedule start_time now st with
  | (Ok evs, st') => (Http200 evs, rollback st st')
  | (Raise HTTPBadRequest, st') => (Http400, rollback st st')
  | (Raise _, st') => (Http500, rollback st st')
  end.

End Api.

(** ** Vocabulary of the statements *)

(** [u] has a qualifying event that no qualifying event starts after: the
    most recent existing event of a roster member on the schedule's team and
    role that starts at or before [start]. *)
Definition most_recent (schedule : schedule) (start : Z) (roster : list Z)
    (d : database) (u : Z) : Prop :=
  ∃ e, e ∈ tbl_event d ∧ RoundRobin.qualifies schedule start roster e ∧
       ev_user_id e = u ∧
       ∀ e', e' ∈ tbl_event d → RoundRobin.qualifies schedule start roster e' →
             ev_start e' ≤ ev_start e.

(** The call returns the roster member that follows [u] in the roster,
    cyclically: with [last_idx] the first position of [u], the member at
    position [(last_idx + 1) mod N]. *)
Definition picks_successor_of (schedule : schedule)
    (future_events : list shift) (d : database) (u : Z) : Prop :=
  ∃ (last_idx : nat) (next : Z),
    RoundRobin.roster schedule d !! last_idx = Some u ∧
    (∀ j, (j < last_idx)%nat → RoundRobin.roster schedule d !! j ≠ Some u) ∧
    RoundRobin.roster schedule d
      !! ((last_idx + 1) `mod` length (RoundRobin.roster schedule d))%nat
      = Some next ∧
    RoundRobin.find_next_user_id schedule future_events d = Ok (Some next).

(** [start] is the earliest start among the segments of [future_events]. *)
Definition earliest_start (future_events : list shift) (start : Z) : Prop :=
  start ∈ fe_start <$> future_events ∧
  ∀ ev, ev ∈ future_events → start ≤ fe_start ev.

(** The row [create_events] writes for one segment, and the rows it writes
    for a period: the [k]-th segment takes the [k]-th next key, and every row
    carries the same link, none for a single segment and the next drawn
    identifier otherwise. *)
Definition event_of (id team_id schedule_id user_id role_id : Z)
    (link_id : option nat) (ev : shift) : event_row :=
  {| ev_id := id; ev_team_id := team_id; ev_schedule_id := Some schedule_id;
     ev_start := fe_start ev; ev_end := fe_end ev; ev_user_id := user_id;
     ev_role_id := role_id; ev_link_id := link_id |}.

Definition link_for (events : list shift) (st : state) : option nat :=
  match events with
  | [_] => None
  | _ => Some (link_count st)
  end.

Definition rows_from (id : Z) (team_id schedule_id user_id role_id : Z)
    (link_id : option nat) (events : list shift) : list event_row :=
  imap (λ k ev, event_of (id + Z.of_nat k) team_id schedule_id user_id role_id
                  link_id ev) events.

(** Every link identifier stored in [event] has been drawn already. *)
Definition links_drawn (st : state) : Prop :=
  ∀ e l, e ∈ tbl_event (db st) → ev_link_id e = Some l →
         (l < link_count st)%nat.

(** An existing event covers a segment: same team, role and exact window. *)
Definition covers (team_id role_id : Z) (ev : shift) (e : event_row) : Prop :=
  ev_team_id e = team_id ∧ ev_role_id e = role_id ∧
  ev_start e = fe_start ev ∧ ev_end e = fe_end ev.

#[global] Instance covers_dec team_id role_id ev e :
  Decision (covers team_id role_id ev e).
Proof. unfold covers. apply _. Defined.

(** Two schedule rows that agree on every column but the rotation cursor, and
    two connections that agree on everything but the stored cursors. *)
Definition same_but_cursor (r1 r2 : schedule_row) : Prop :=
  sr_id r1 = sr_id r2 ∧ sr_team_id r1 = sr_team_id r2 ∧
  sr_roster_id r1 = sr_roster_id r2 ∧ sr_role_id r1 = sr_role_id r2 ∧
  sr_auto_populate_threshold r1 = sr_auto_populate_threshold r2 ∧
  sr_advanced_mode r1 = sr_advanced_mode r2.

Definition cursor_variant (st1 st2 : state) : Prop :=
  Forall2 same_but_cursor (tbl_schedule (db st1)) (tbl_schedule (db st2)) ∧
  tbl_roster_user (db st1) = tbl_roster_user (db st2) ∧
  tbl_schedule_order (db st1) = tbl_schedule_order (db st2) ∧
  tbl_event (db st1) = tbl_event (db st2) ∧
  auto_increment st1 = auto_increment st2 ∧
  link_count st1 = link_count st2.

(** An event with its generated identifiers (key and link id) blanked, and
    with its generated identifiers shifted by fixed offsets. *)
Definition forget_ids (e : event_row) : event_row :=
  {| ev_id := 0; ev_team_id := ev_team_id e;
     ev_schedule_id := ev_schedule_id e; ev_start := ev_start e;
     ev_end := ev_end e; ev_user_id := ev_user_id e;
     ev_role_id := ev_role_id e; ev_link_id := None |}.

Definition renumber (by_id : Z) (by_link : nat) (e : event_row) : event_row :=
  {| ev_id := ev_id e + by_id; ev_team_id := ev_team_id e;
     ev_schedule_id := ev_schedule_id e; ev_start := ev_start e;
     ev_end := ev_end e; ev_user_id := ev_user_id e;
     ev_role_id := ev_role_id e;
     ev_link_id := (λ l, (l + by_link)%nat) <$> ev_link_id e |}.

Definition forget_db (d : database) : database :=
  {| tbl_schedule := tbl_schedule d; tbl_roster_user := tbl_roster_user d;
     tbl_schedule_order := tbl_schedule_order d;
     tbl_event := forget_ids <$> tbl_event d |}.

(** The connection of a populate run ([st2]) against the connection of a
    preview run ([st1]) that started from the same tables with events [old]:
    they agree but for the identifiers of the rows written since, which are
    shifted by the offsets between the two connections' counters. *)
Definition run_sim (old : list event_row) (by_id : Z) (by_link : nat)
    (st1 st2 : state) : Prop :=
  tbl_schedule (db st1) = tbl_schedule (db st2) ∧
  tbl_roster_user (db st1) = tbl_roster_user (db st2) ∧
  tbl_schedule_order (db st1) = tbl_schedule_order (db st2) ∧
  (∃ new, tbl_event (db st1) = old ++ new ∧
          tbl_event (db st2) = old ++ (renumber by_id by_link <$> new)) ∧
  auto_increment st2 = auto_increment st1 + by_id ∧
  link_count st2 = (link_count st1 + by_link)%nat.

(** The connection after differs from the one before only in the stored
    cursors and in rows appended to [event]. *)
Definition only_cursors_and_new_events (st st' : state) : Prop :=
  Forall2 same_but_cursor (tbl_schedule (db st)) (tbl_schedule (db st')) ∧
  tbl_roster_user (db st') = tbl_roster_user (db st) ∧
  tbl_schedule_order (db st') = tbl_schedule_order (db st) ∧
  ∃ new, tbl_event (db st') = tbl_event (db st) ++ new.

(** ** Sample data

    One team (10) with a weekly primary (role 20) schedule over two
    in-rotation users, a third user out of rotation, and a second schedule
    of another team. *)

Module Sample.

Definition weekly : schedule :=
  {| s_id := 1; s_team_id := 10; s_role_id := 20; s_roster_id := 30;
     s_events := [(0, 604800)]; s_period := 604800;
     s_auto_populate_threshold := 14 |}.

(** The same schedule with two 12-hour segments per period. *)
Definition half_days : schedule :=
  {| s_id := 1; s_team_id := 10; s_role_id := 20; s_roster_id := 30;
     s_events := [(0, 43200); (86400, 43200)]; s_period := 604800;
     s_auto_populate_threshold := 14 |}.

(** The weekly schedule with horizons that are no multiple of the period. *)
Definition ten_days : schedule :=
  {| s_id := 1; s_team_id := 10; s_role_id := 20; s_roster_id := 30;
     s_events := [(0, 604800)]; s_period := 604800;
     s_auto_populate_threshold := 10 |}.

Definition one_day : schedule :=
  {| s_id := 1; s_team_id := 10; s_role_id := 20; s_roster_id := 30;
     s_events := [(0, 604800)]; s_period := 604800;
     s_auto_populate_threshold := 1 |}.

Definition schedule_row_1 (cursor : option Z) : schedule_row :=
  {| sr_id := 1; sr_team_id := 10; sr_roster_id := 30; sr_role_id := 20;
     sr_auto_populate_threshold := 14; sr_advanced_mode := false;
     sr_last_scheduled_user_id := cursor |}.

Definition schedule_row_2 (cursor : option Z) : schedule_row :=
  {| sr_id := 2; sr_team_id := 11; sr_roster_id := 31; sr_role_id := 20;
     sr_auto_populate_threshold := 21; sr_advanced_mode := true;
     sr_last_scheduled_user_id := cursor |}.

Definition manual_event (user_id start end_ : Z) : event_row :=
  {| ev_id := 1; ev_team_id := 10; ev_schedule_id := None; ev_start := start;
     ev_end := end_; ev_user_id := user_id; ev_role_id := 20;
     ev_link_id := None |}.

Definition tables (cursor_1 cursor_2 : option Z) (events : list event_row)
    : database :=
  {| tbl_schedule := [schedule_row_1 cursor_1; schedule_row_2 cursor_2];
     tbl_roster_user :=
       [ {| ru_roster_id := 30; ru_user_id := 101; ru_in_rotation := true |};
         {| ru_roster_id := 30; ru_user_id := 102; ru_in_rotation := true |};
         {| ru_roster_id := 30; ru_user_id := 103; ru_in_rotation := false |} ];
     tbl_schedule_order :=
       [ {| so_schedule_id := 1; so_user_id := 102; so_priority := 0 |};
         {| so_schedule_id := 1; so_user_id := 101; so_priority := 0 |};
         {| so_schedule_id := 1; so_user_id := 103; so_priority := 0 |} ];
     tbl_event := events |}.

(** The schedule exists, nobody is in its roster. *)
Definition no_roster : database :=
  {| tbl_schedule := [schedule_row_1 None];
     tbl_roster_user := [];
     tbl_schedule_order :=
       [ {| so_schedule_id := 1; so_user_id := 101; so_priority := 0 |} ];
     tbl_event := [] |}.

Definition connection (d : database) : state :=
  {| db := d; auto_increment := 2; link_count := 0 |}.

Definition week (start : Z) : list shift :=
  [ {| fe_start := start; fe_end := start + 604800 |} ].

End Sample.

(** ** Vocabulary of the further properties *)

(** [find_next_user_id] and [create_events] called in turn, once per epoch,
    each [create_events] with the user just returned: the users picked, up
    to the first call of [find_next_user_id] that returns [None] or raises. *)
Fixpoint take_turns (schedule : schedule) (epochs : list (list shift))
    (st : state) : list Z :=
  match epochs with
  | [] => []
  | epoch :: epochs' =>
      match RoundRobin.find_next_user_id schedule epoch (db st) with
      | Ok (Some user_id) =>
          user_id ::
          take_turns schedule epochs'
            (RoundRobin.create_events (s_team_id schedule) (s_id schedule)
               user_id epoch (s_role_id schedule) true st)
      | _ => []
      end
  end.

(** The columns of an event the scheduler's queries mention. *)
Definition calendar_key (e : event_row) : Z * Z * Z * Z :=
  (ev_team_id e, ev_user_id e, ev_start e, ev_role_id e).

(** The event that has the given queried columns and blank other columns. *)
Definition event_of_key (k : Z * Z * Z * Z) : event_row :=
  {| ev_id := 0; ev_team_id := k.1.1.1; ev_schedule_id := None;
     ev_start := k.1.2; ev_end := 0; ev_user_id := k.1.1.2;
     ev_role_id := k.2; ev_link_id := None |}.

(** A database with another [event] table. *)
Definition with_events (evs : list event_row) (d : database) : database :=
  {| tbl_schedule := tbl_schedule d; tbl_roster_user := tbl_roster_user d;
     tbl_schedule_order := tbl_schedule_order d; tbl_event := evs |}.

(** An event that can be the answer of the inference query for some start:
    same team and role as the schedule, user in the roster. *)
Definition on_calendar (schedule : schedule) (roster : list Z)
    (e : event_row) : Prop :=
  ev_team_id e = s_team_id schedule ∧ ev_user_id e ∈ roster ∧
  ev_role_id e = s_role_id schedule.

(** ** Batching helpers of the on-call endpoints *)

(** [range(0, stop, step)]: [ValueError] for a zero step; otherwise the
    multiples of [step] from 0 on that lie before [stop] (after it for a
    negative step). *)
Definition py_range_len (stop step : Z) : Z :=
  if decide (0 < step) then
    if decide (0 < stop) then (stop - 1) `div` step + 1 else 0
  else
    if decide (stop < 0) then (- stop - 1) `div` (- step) + 1 else 0.

Definition py_range (stop step : Z) : result (list Z) :=
  if decide (step = 0) then Raise ValueError
  else Ok ((λ k, Z.of_nat k * step) <$> seq 0 (Z.to_nat (py_range_len stop step))).

(** [seq[i:j]] for indices that are not negative. *)
Definition py_slice {A} (xs : list A) (i j : Z) : list A :=
  take (Z.to_nat (j - i)) (drop (Z.to_nat i) xs).

Module ServiceOncall.

(** [_ph] of api/v0/service_oncall.py. *)
Definition _ph (n : Z) : string :=
  String.concat ", " (replicate (Z.to_nat n) "%s").

(** [_chunks] of api/v0/service_oncall.py, the chunks it yields in order. *)
Definition _chunks {A} (seq : list A) (size : Z) : result (list (list A)) :=
  (λ starts : list Z, (λ i, py_slice seq i (i + size)) <$> starts)
    <$> py_range (Z.of_nat (length seq)) size.


(** One element of the list [on_get] answers with. *)
Record item := {
  it_contacts : gmap string string;
  it_end : Z;
  it_start : Z;
  it_user : option string;
  it_full_name : option string;
  it_team : option string;
  it_role : option string
}.

(** The dictionaries built by step 4 of [on_get]. *)
Section on_get.
Context (users : gmap Z (option string * option string)).
Context (contacts_by_user : gmap Z (gmap string string)).
Context (team_name role_name : gmap Z (option string)).

(** The [item] of step 5 for an event whose user has the name [uname]. *)
Definition item_of (e : event_row) (uname full : option string) : item :=
  {| it_contacts := default ∅ (contacts_by_user !! ev_user_id e);
     it_end := ev_end e; it_start := ev_start e;
     it_user := uname; it_full_name := full;
     it_team := default None (team_name !! ev_team_id e);
     it_role := default None (role_name !! ev_role_id e) |}.

(** The body of the loop of step 5 from [users.get] on: nothing for a user
    without a name. *)
Definition item_for (e : event_row) : option item :=
  match default (None, None) (users !! ev_user_id e) with
  | (None, _) => None
  | (Some uname, full) => Some (item_of e (Some uname) full)
  end.

(** Step 5 of [on_get] in service_oncall.py, "first event per user wins":
    one round of the loop over [evs], on the pair of [seen] and [out]. *)
Definition assemble_step (acc : gset Z * list item) (e : event_row)
    : gset Z * list item :=
  let '(seen, out) := acc in
  let uid := ev_user_id e in
  if decide (uid ∈ seen) then (seen, out)
  else
    let seen := {[uid]} ∪ seen in
    match item_for e with
    | None => (seen, out)
    | Some item => (seen, out ++ [item])
    end.

Definition assemble (evs : list event_row) : list item :=
  (foldl assemble_step (∅, []) evs).2.

End on_get.

End ServiceOncall.

Module TeamOncall.

(** [_expand_in_placeholders] of api/v0/team_oncall.py. *)
Definition _expand_in_placeholders (n : Z) : string :=
  String.concat ", " (replicate (Z.to_nat n) "%s").

(** The inner loop of [_chunk], [for _ in range(size): buf.append(next(it))]:
    the buffer, what is left of the iterator, and whether [next] raised
    [StopIteration]. *)
Fixpoint fill {A} (n : nat) (it buf : list A) : list A * list A * bool :=
  match n with
  | O => (buf, it, false)
  | S n' =>
      match it with
      | [] => (buf, [], true)
      | x :: it' => fill n' it' (buf ++ [x])
      end
  end.

(** [_chunk] of api/v0/team_oncall.py: the chunks yielded until the
    generator returns; [None] when [fuel] rounds of the [while True] loop do
    not reach the [break]. *)
Fixpoint _chunk {A} (fuel : nat) (it : list A) (size : Z)
    : option (list (list A)) :=
  match fuel with
  | O => None
  | S fuel' =>
      let '(buf, it', stop_iteration) := fill (Z.to_nat size) it [] in
      if stop_iteration then
        Some (match buf with [] => [] | _ => [buf] end)
      else
        chunks ← _chunk fuel' it' size; Some (buf :: chunks)
  end.


Import ServiceOncall (item, Build_item, it_contacts, it_end, it_start,
  it_user, it_full_name, it_team, it_role).

(** [by_user], a dictionary in insertion order: lookup, and assignment to a
    key that is present. *)
Fixpoint by_user_get (uid : Z) (by_user : list (Z * item)) : option item :=
  match by_user with
  | [] => None
  | (k, v) :: by_user' =>
      if decide (k = uid) then Some v else by_user_get uid by_user'
  end.

Fixpoint by_user_update (uid : Z) (f : item → item)
    (by_user : list (Z * item)) : list (Z * item) :=
  match by_user with
  | [] => []
  | (k, v) :: by_user' =>
      if decide (k = uid) then (k, f v) :: by_user'
      else (k, v) :: by_user_update uid f by_user'
  end.

(** "If the same user appears multiple times, keep the widest window". *)
Definition widen (e : event_row) (it : item) : item :=
  {| it_contacts := it_contacts it;
     it_end := if decide (it_end it < ev_end e) then ev_end e else it_end it;
     it_start := if decide (ev_start e < it_start it) then ev_start e
                 else it_start it;
     it_user := it_user it; it_full_name := it_full_name it;
     it_team := it_team it; it_role := it_role it |}.

Section on_get.
Context (users : gmap Z (option string * option string)).
Context (contacts_by_user : gmap Z (gmap string string)).
Context (team_name_by_id role_name_by_id : gmap Z (option string)).

(** The [item] created for the first event of a user. *)
Definition new_item (e : event_row) (u : option string * option string)
    : item :=
  {| it_contacts := default ∅ (contacts_by_user !! ev_user_id e);
     it_end := ev_end e; it_start := ev_start e;
     it_user := u.1; it_full_name := u.2;
     it_team := default None (team_name_by_id !! ev_team_id e);
     it_role := default None (role_name_by_id !! ev_role_id e) |}.

(** Step 5 of [on_get] in team_oncall.py: one round of the loop over
    [events], on [by_user]. *)
Definition assemble_step (by_user : list (Z * item)) (e : event_row)
    : list (Z * item) :=
  let uid := ev_user_id e in
  match users !! uid with
  | None => by_user
  | Some u =>
      match by_user_get uid by_user with
      | None => by_user ++ [(uid, new_item e u)]
      | Some _ => by_user_update uid (widen e) by_user
      end
  end.

(** [data = list(by_user.values())]. *)
Definition assemble (events : list event_row) : list item :=
  (foldl assemble_step [] events).*2.

End on_get.

End TeamOncall.

(** The number of [%s] placeholders in a query fragment, counted by their
    percent signs. *)
Definition placeholders (q : string) : nat :=
  length (filter (λ c, c = "%"%char) (String.list_ascii_of_string q)).

(** The events that are the first of their user in a list, in order. *)
Fixpoint first_per_user (evs : list event_row) : list event_row :=
  match evs with
  | [] => []
  | e :: evs' =>
      e :: filter (λ e', ev_user_id e' ≠ ev_user_id e) (first_per_user evs')
  end.

(** [e] stands at position [i] of [evs] and no earlier event has its user. *)
Definition first_of_user (evs : list event_row) (i : nat) (e : event_row)
    : Prop :=
  evs !! i = Some e ∧
  ∀ j e', (j < i)%nat → evs !! j = Some e' → ev_user_id e' ≠ ev_user_id e.

(** The window of [it] is the widest one over the events of user [uid]: it
    starts with the earliest of them and ends with the latest. *)
Definition spans (events : list event_row) (uid : Z) (it : ServiceOncall.item)
    : Prop :=
  (∃ e, e ∈ events ∧ ev_user_id e = uid ∧
        ev_start e = ServiceOncall.it_start it) ∧
  (∀ e, e ∈ events → ev_user_id e = uid →
        ServiceOncall.it_start it ≤ ev_start e) ∧
  (∃ e, e ∈ events ∧ ev_user_id e = uid ∧
        ev_end e = ServiceOncall.it_end it) ∧
  (∀ e, e ∈ events → ev_user_id e = uid →
        ev_end e ≤ ServiceOncall.it_end it).

(** Two items that agree on everything but the window. *)
Definition same_but_window (it1 it2 : ServiceOncall.item) : Prop :=
  ServiceOncall.it_contacts it1 = ServiceOncall.it_contacts it2 ∧
  ServiceOncall.it_user it1 = ServiceOncall.it_user it2 ∧
  ServiceOncall.it_full_name it1 = ServiceOncall.it_full_name it2 ∧
  ServiceOncall.it_team it1 = ServiceOncall.it_team it2 ∧
  ServiceOncall.it_role it1 = ServiceOncall.it_role it2.

(** What step 5 of [on_get] in team_oncall.py answers for the user of [e0],
    the first event of that user: an item with the names, team, role and
    contacts fetched for [e0] and the widest window over the user's events. *)
Definition answers_for (users : gmap Z (option string * option string))
    (contacts_by_user : gmap Z (gmap string string))
    (team_name_by_id role_name_by_id : gmap Z (option string))
    (events : list event_row) (e0 : event_row) (it : ServiceOncall.item)
    : Prop :=
  (∃ u, users !! ev_user_id e0 = Some u ∧
        same_but_window it
          (TeamOncall.new_item contacts_by_user team_name_by_id
             role_name_by_id e0 u)) ∧
  spans events (ev_user_id e0) it.

(** Two events of user 101, active at 1500, the second starting earlier and
    ending later than the first. *)
Definition two_shifts : list event_row :=
  [ Sample.manual_event 101 1000 2000; Sample.manual_event 101 500 3000 ].

Definition one_user : gmap Z (option string * option string) :=
  {[ 101 := (Some "jdoe", Some "John Doe") ]}.

(** * Properties *)

(** ** Built-ins *)

Lemma foldr_max_spec (s : Z) (ss : list Z) :
  foldr Z.max s ss ∈ s :: ss ∧ Forall (λ x, x ≤ foldr Z.max s ss) (s :: ss).
Proof.
  induction ss as [|x ss [IHin IHle]]; simpl.
  - split; [left | repeat constructor; lia].
  - split.
    + destruct (Z.max_spec x (foldr Z.max s ss)) as [[_ ->]|[_ ->]].
      * apply elem_of_cons in IHin as [->|?]; [left | do 2 right; done].
      * right; left.
    + apply Forall_cons in IHle as [Hs Hss].
      repeat constructor; [lia | lia |].
      eapply Forall_impl; [exact Hss | simpl; intros; lia].
Qed.

Lemma foldr_min_spec (s : Z) (ss : list Z) :
  foldr Z.min s ss ∈ s :: ss ∧ Forall (λ x, foldr Z.min s ss ≤ x) (s :: ss).
Proof.
  induction ss as [|x ss [IHin IHle]]; simpl.
  - split; [left | repeat constructor; lia].
  - split.
    + destruct (Z.min_spec x (foldr Z.min s ss)) as [[_ ->]|[_ ->]].
      * right; left.
      * apply elem_of_cons in IHin as [->|?]; [left | do 2 right; done].
    + apply Forall_cons in IHle as [Hs Hss].
      repeat constructor; [lia | lia |].
      eapply Forall_impl; [exact Hss | simpl; intros; lia].
Qed.

(** [min] returns on a non-empty sequence, and returns its least element. *)
Lemma py_min_nonempty (xs : list Z) :
  xs ≠ [] →
  ∃ m, py_min xs = Ok m ∧ m ∈ xs ∧ Forall (λ x, m ≤ x) xs.
Proof.
  destruct xs as [|x xs]; [done | intros _].
  exists (foldr Z.min x xs). split; [done | apply foldr_min_spec].
Qed.

(** [index] finds the first occurrence of an element of the list. *)
Lemma py_index_elem_of (x : Z) (xs : list Z) :
  x ∈ xs →
  ∃ i, py_index x xs = Ok i ∧ xs !! i = Some x ∧
       ∀ j, (j < i)%nat → xs !! j ≠ Some x.
Proof.
  induction xs as [|y xs IH]; [by intros ?%elem_of_nil|].
  intros Hin. simpl. destruct (decide (y = x)) as [->|Hne].
  - exists 0%nat. split_and!; [done | done | intros j ?; lia].
  - apply elem_of_cons in Hin as [->|Hin]; [done|].
    destruct (IH Hin) as (i & -> & Hi & Hfirst).
    exists (S i). split_and!; [done | done |].
    intros [|j] Hj; simpl; [congruence | apply Hfirst; lia].
Qed.

Lemma py_index_not_elem_of (x : Z) (xs : list Z) :
  x ∉ xs → py_index x xs = Raise ValueError.
Proof.
  induction xs as [|y xs IH]; [done|].
  intros Hnin. apply not_elem_of_cons in Hnin as [? ?]. simpl.
  rewrite decide_False by done. by rewrite IH.
Qed.

Lemma py_getitem_lt (xs : list Z) (i : nat) :
  (i < length xs)%nat → ∃ x, xs !! i = Some x ∧ py_getitem xs i = Ok x.
Proof.
  intros [x Hx]%lookup_lt_is_Some_2. exists x.
  unfold py_getitem. by rewrite Hx.
Qed.

(** ** The roster *)

#[global] Instance priority_order_total : Total RoundRobin.priority_order.
Proof. intros a b. unfold RoundRobin.priority_order. lia. Qed.

#[global] Instance priority_order_trans : Transitive RoundRobin.priority_order.
Proof. intros a b c. unfold RoundRobin.priority_order. lia. Qed.

#[global] Instance last_start_desc_total : Total RoundRobin.last_start_desc.
Proof. intros a b. unfold RoundRobin.last_start_desc. lia. Qed.

#[global] Instance last_start_desc_trans : Transitive RoundRobin.last_start_desc.
Proof. intros a b c. unfold RoundRobin.last_start_desc. lia. Qed.

Section roster_facts.
Import RoundRobin.

(** Membership in the set built by the first query. *)
Lemma elem_of_roster_users schedule d u :
  u ∈ roster_users schedule d ↔
  ∃ r, r ∈ tbl_roster_user d ∧ ru_roster_id r = s_roster_id schedule ∧
       ru_in_rotation r = true ∧ ru_user_id r = u.
Proof.
  unfold roster_users. rewrite elem_of_list_to_set, list_elem_of_fmap.
  split.
  - intros (r & -> & (Hr & Hin)%list_elem_of_filter).
    destruct Hr. by exists r.
  - intros (r & Hin & ? & ? & <-). exists r. split; [done|].
    apply list_elem_of_filter. done.
Qed.

Lemma roster_rows_sorted schedule d :
  StronglySorted priority_order (roster_rows schedule d).
Proof.
  unfold roster_rows, schedule_order.
  generalize (StronglySorted_merge_sort priority_order
    (filter (λ r, so_schedule_id r = s_id schedule) (tbl_schedule_order d))).
  generalize (merge_sort priority_order
    (filter (λ r, so_schedule_id r = s_id schedule) (tbl_schedule_order d))).
  intros l Hl. induction Hl as [|x l Hl IH Hx]; [constructor|].
  rewrite filter_cons. case_decide; [|done].
  constructor; [done|].
  apply Forall_forall. intros y [_ Hy]%list_elem_of_filter.
  by eapply Forall_forall in Hx.
Qed.

Lemma roster_rows_perm schedule d :
  roster_rows schedule d ≡ₚ
  filter (λ r, so_schedule_id r = s_id schedule ∧
               so_user_id r ∈ roster_users schedule d)
         (tbl_schedule_order d).
Proof.
  unfold roster_rows, schedule_order.
  rewrite merge_sort_Permutation.
  induction (tbl_schedule_order d) as [|x l IH]; [done|].
  rewrite !filter_cons.
  destruct (decide (so_schedule_id x = s_id schedule)) as [H1|H1].
  - rewrite filter_cons.
    destruct (decide (so_user_id x ∈ roster_users schedule d)) as [H2|H2].
    + rewrite decide_True by done. by rewrite IH.
    + rewrite decide_False by (intros [? ?]; done). done.
  - rewrite decide_False by (intros [? ?]; done). done.
Qed.

Lemma elem_of_roster schedule d u :
  u ∈ roster schedule d ↔
  (∃ r, r ∈ tbl_roster_user d ∧ ru_roster_id r = s_roster_id schedule ∧
        ru_in_rotation r = true ∧ ru_user_id r = u) ∧
  (∃ o, o ∈ tbl_schedule_order d ∧ so_schedule_id o = s_id schedule ∧
        so_user_id o = u).
Proof.
  unfold roster. rewrite list_elem_of_fmap. setoid_rewrite roster_rows_perm.
  setoid_rewrite list_elem_of_filter.
  rewrite <- elem_of_roster_users. split.
  - intros (o & -> & [Hs Hu] & Hin). split; [done|]. by exists o.
  - intros (Hu & o & Hin & Hs & <-). by exists o.
Qed.

(** With an empty roster the function bails out before it looks at
    [future_events]. *)
Lemma find_next_user_id_empty_roster schedule future_events d :
  roster schedule d = [] →
  find_next_user_id schedule future_events d = Ok None.
Proof.
  intros Hr. unfold find_next_user_id. rewrite Hr.
  by destruct (select_last_scheduled_user_id schedule d).
Qed.

Lemma find_next_user_id_no_schedule schedule future_events d :
  select_last_scheduled_user_id schedule d = [] →
  find_next_user_id schedule future_events d = Ok None.
Proof. intros Hs. unfold find_next_user_id. by rewrite Hs. Qed.
End roster_facts.

(** ** Inference of the last scheduled user from the calendar *)

Section guess_facts.
Import RoundRobin.

Lemma max_start_spec (evs : list event_row) :
  evs ≠ [] →
  (∃ e, e ∈ evs ∧ ev_start e = max_start evs) ∧
  ∀ e, e ∈ evs → ev_start e ≤ max_start evs.
Proof.
  destruct evs as [|e0 evs]; [done | intros _].
  unfold max_start. rewrite fmap_cons.
  destruct (foldr_max_spec (ev_start e0) (ev_start <$> evs)) as [Hin Hle].
  rewrite <- fmap_cons in Hin, Hle. split.
  - apply list_elem_of_fmap in Hin as (e & He & Hin). by exists e.
  - intros e He. rewrite Forall_fmap, Forall_forall in Hle.
    by apply Hle.
Qed.

(** Every user with an event gets one row, carrying that user's latest
    start. *)
Lemma elem_of_group_by_user evs u m :
  (u, m) ∈ group_by_user evs ↔
  (∃ e, e ∈ evs ∧ ev_user_id e = u) ∧
  m = max_start (filter (λ e, ev_user_id e = u) evs).
Proof.
  unfold group_by_user. rewrite list_elem_of_fmap.
  setoid_rewrite elem_of_remove_dups. setoid_rewrite list_elem_of_fmap.
  split.
  - intros (u' & [= -> ->] & e & -> & He). split; [by exists e | done].
  - intros [(e & He & <-) ->]. exists (ev_user_id e).
    split; [done | by exists e].
Qed.

Lemma guess_last_scheduled_user_Some schedule start roster d u :
  guess_last_scheduled_user schedule start roster d = Some u →
  most_recent schedule start roster d u.
Proof.
  unfold guess_last_scheduled_user.
  set (Q := filter (qualifies schedule start roster) (tbl_event d)).
  pose proof (StronglySorted_merge_sort last_start_desc (group_by_user Q))
    as Hsorted.
  pose proof (merge_sort_Permutation last_start_desc (group_by_user Q))
    as Hperm.
  destruct (merge_sort last_start_desc (group_by_user Q))
    as [|[u0 m0] t]; [done|].
  intros [= <-]. simpl in *.
  assert ((u0, m0) ∈ group_by_user Q) as Hrow
    by (rewrite <- Hperm; left).
  apply elem_of_group_by_user in Hrow as [(e0 & He0 & Hu0) ->].
  destruct (max_start_spec (filter (λ e, ev_user_id e = u0) Q))
    as [(e & He & Hmax) _].
  { intros Hnil. assert (e0 ∈ filter (λ e, ev_user_id e = u0) Q) as Hin
      by (by apply list_elem_of_filter).
    rewrite Hnil in Hin. by apply elem_of_nil in Hin. }
  apply list_elem_of_filter in He as [Hu He].
  apply list_elem_of_filter in He as [Hq Hin].
  exists e. split_and!; [done..|].
  intros e' Hin' Hq'.
  assert (e' ∈ Q) as HQ' by (by apply list_elem_of_filter).
  set (m' := max_start (filter (λ e, ev_user_id e = ev_user_id e') Q)).
  assert ((ev_user_id e', m') ∈ group_by_user Q) as Hrow'.
  { apply elem_of_group_by_user. split; [by exists e' | done]. }
  assert (ev_start e' ≤ m') as Hle'.
  { apply max_start_spec.
    - intros Hnil.
      assert (e' ∈ filter (λ e, ev_user_id e = ev_user_id e') Q) as Hin''
        by (by apply list_elem_of_filter).
      rewrite Hnil in Hin''. by apply elem_of_nil in Hin''.
    - by apply list_elem_of_filter. }
  rewrite <- Hperm in Hrow'. rewrite Hmax.
  apply elem_of_cons in Hrow' as [Heq|Hrow'].
  - injection Heq as _ Hm. fold m'. lia.
  - apply StronglySorted_inv in Hsorted as [_ Hhd].
    rewrite Forall_forall in Hhd. specialize (Hhd _ Hrow').
    unfold last_start_desc in Hhd. simpl in Hhd. lia.
Qed.

Lemma guess_last_scheduled_user_None schedule start roster d :
  guess_last_scheduled_user schedule start roster d = None ↔
  ∀ e, e ∈ tbl_event d → ¬ qualifies schedule start roster e.
Proof.
  unfold guess_last_scheduled_user.
  set (Q := filter (qualifies schedule start roster) (tbl_event d)).
  pose proof (merge_sort_Permutation last_start_desc (group_by_user Q))
    as Hperm.
  split.
  - destruct (merge_sort last_start_desc (group_by_user Q)); [|done].
    intros _ e Hin Hq.
    assert (e ∈ Q) as HQ by (by apply list_elem_of_filter).
    assert ((ev_user_id e, max_start (filter (λ e', ev_user_id e' = ev_user_id e) Q))
              ∈ group_by_user Q) as Hrow.
    { apply elem_of_group_by_user. split; [by exists e | done]. }
    rewrite <- Hperm in Hrow. by apply elem_of_nil in Hrow.
  - intros Hnone.
    destruct (merge_sort last_start_desc (group_by_user Q))
      as [|[u m] t]; [done|]. exfalso.
    assert ((u, m) ∈ group_by_user Q) as Hrow by (rewrite <- Hperm; left).
    apply elem_of_group_by_user in Hrow as [(e & He & _) _].
    apply list_elem_of_filter in He as [Hq Hin]. by eapply Hnone.
Qed.

(** The inferred user is a member of the roster passed in. *)
Lemma guess_last_scheduled_user_in_roster schedule start roster d u :
  guess_last_scheduled_user schedule start roster d = Some u → u ∈ roster.
Proof.
  intros (e & _ & Hq & <- & _)%guess_last_scheduled_user_Some.
  apply Hq.
Qed.
End guess_facts.

(** ** [find_next_user_id] *)

Section find_next_user_id_facts.
Import RoundRobin.

Lemma next_after_elem_of (roster : list Z) (u : Z) :
  u ∈ roster →
  ∃ (last_idx : nat) (next : Z),
    roster !! last_idx = Some u ∧
    (∀ j, (j < last_idx)%nat → roster !! j ≠ Some u) ∧
    roster !! ((last_idx + 1) `mod` length roster)%nat = Some next ∧
    next_after roster (Some u) = Ok next.
Proof.
  intros Hin. destruct (py_index_elem_of u roster Hin) as (i & Hi & Hu & Hfirst).
  assert (length roster ≠ 0)%nat as Hlen
    by (destruct roster; [by apply elem_of_nil in Hin | done]).
  destruct (py_getitem_lt roster ((i + 1) `mod` length roster)%nat)
    as (next & Hnext & Hget); [by apply Nat.mod_upper_bound|].
  exists i, next. split_and!; [done..|].
  unfold next_after. rewrite Hi. simpl. done.
Qed.

(** The body of the function past its first guard. *)
Lemma find_next_user_id_unfold schedule future_events d last_user rest :
  roster schedule d ≠ [] →
  select_last_scheduled_user_id schedule d = last_user :: rest →
  find_next_user_id schedule future_events d =
    if decide (in_roster last_user (roster schedule d)) then
      Some <$> next_after (roster schedule d) last_user
    else
      start ← py_min (fe_start <$> future_events);
      match guess_last_scheduled_user schedule start (roster schedule d) d with
      | None => Some <$> py_getitem (roster schedule d) 0
      | Some u => Some <$> next_after (roster schedule d) (Some u)
      end.
Proof.
  intros Hr Hs. unfold find_next_user_id. rewrite Hs.
  by destruct (roster schedule d).
Qed.

Lemma picks_successor_of_stored schedule future_events d u rest :
  select_last_scheduled_user_id schedule d = Some u :: rest →
  u ∈ roster schedule d →
  picks_successor_of schedule future_events d u.
Proof.
  intros Hs Hin.
  destruct (next_after_elem_of _ _ Hin) as (i & next & Hi & Hfirst & Hnext & Hrun).
  exists i, next. split_and!; [done..|].
  rewrite (find_next_user_id_unfold _ _ _ (Some u) rest); [|by intros Hnil; rewrite Hnil in Hin; apply elem_of_nil in Hin|done].
  rewrite decide_True by done. by rewrite Hrun.
Qed.

Lemma picks_successor_of_inferred schedule future_events d last_user rest start u :
  select_last_scheduled_user_id schedule d = last_user :: rest →
  ¬ in_roster last_user (roster schedule d) →
  py_min (fe_start <$> future_events) = Ok start →
  guess_last_scheduled_user schedule start (roster schedule d) d = Some u →
  picks_successor_of schedule future_events d u.
Proof.
  intros Hs Hnin Hmin Hguess.
  pose proof (guess_last_scheduled_user_in_roster _ _ _ _ _ Hguess) as Hin.
  destruct (next_after_elem_of _ _ Hin) as (i & next & Hi & Hfirst & Hnext & Hrun).
  exists i, next. split_and!; [done..|].
  rewrite (find_next_user_id_unfold _ _ _ last_user rest); [|by intros Hnil; rewrite Hnil in Hin; apply elem_of_nil in Hin|done].
  rewrite decide_False by done. rewrite Hmin. simpl.
  rewrite Hguess. by rewrite Hrun.
Qed.

Lemma find_next_user_id_first schedule future_events d last_user rest start :
  roster schedule d ≠ [] →
  select_last_scheduled_user_id schedule d = last_user :: rest →
  ¬ in_roster last_user (roster schedule d) →
  py_min (fe_start <$> future_events) = Ok start →
  guess_last_scheduled_user schedule start (roster schedule d) d = None →
  ∃ first, roster schedule d !! 0%nat = Some first ∧
           find_next_user_id schedule future_events d = Ok (Some first).
Proof.
  intros Hr Hs Hnin Hmin Hguess.
  rewrite (find_next_user_id_unfold _ _ _ last_user rest) by done.
  rewrite decide_False by done. rewrite Hmin. simpl. rewrite Hguess.
  destruct (roster schedule d) as [|first ?]; [done|]. by exists first.
Qed.

Lemma py_min_earliest future_events start :
  py_min (fe_start <$> future_events) = Ok start →
  earliest_start future_events start.
Proof.
  intros Hmin.
  destruct (py_min_nonempty (fe_start <$> future_events))
    as (m & Hm & Hin & Hle).
  { intros Hnil. by rewrite Hnil in Hmin. }
  rewrite Hmin in Hm. injection Hm as <-. split; [done|].
  intros ev Hev. rewrite Forall_fmap, Forall_forall in Hle. by apply Hle.
Qed.
End find_next_user_id_facts.

(** ** The claims about [find_next_user_id] *)

Section find_next_user_id_claims.
Import RoundRobin.

(** C5.  For a non-empty roster of a schedule that exists, the user returned
    is the roster member right after the last-scheduled user in priority
    order, cyclically (position [(last_idx + 1) mod N]): after the stored
    cursor when it names a roster member, after the user inferred from the
    calendar otherwise; and when the cursor names no roster member and no
    event qualifies at the earliest start of the period, the user returned is
    [roster[0]]. *)
Theorem find_next_user_id_rotation schedule future_events d last_user rest :
  roster schedule d ≠ [] →
  select_last_scheduled_user_id schedule d = last_user :: rest →
  (∀ u, last_user = Some u → u ∈ roster schedule d →
        picks_successor_of schedule future_events d u) ∧
  (∀ start u,
      ¬ in_roster last_user (roster schedule d) →
      py_min (fe_start <$> future_events) = Ok start →
      guess_last_scheduled_user schedule start (roster schedule d) d = Some u →
      picks_successor_of schedule future_events d u) ∧
  (∀ start,
      ¬ in_roster last_user (roster schedule d) →
      py_min (fe_start <$> future_events) = Ok start →
      (∀ e, e ∈ tbl_event d →
            ¬ qualifies schedule start (roster schedule d) e) →
      ∃ first, roster schedule d !! 0%nat = Some first ∧
               find_next_user_id schedule future_events d = Ok (Some first)).
Proof.
  intros Hr Hs. split_and!.
  - intros u -> Hin. by eapply picks_successor_of_stored.
  - intros start u Hnin Hmin Hguess. by eapply picks_successor_of_inferred.
  - intros start Hnin Hmin Hnone.
    eapply find_next_user_id_first; [done..|].
    by apply guess_last_scheduled_user_None.
Qed.

(** C6.  When the stored cursor is NULL or names a user outside the roster,
    the last-scheduled user is read off the calendar at the earliest start
    [start] of the period: either some roster member [u] owns the most recent
    event of this team and role starting at or before [start] among roster
    members, and the pick is the successor of [u]; or no event of a roster
    member qualifies and the pick is [roster[0]]. *)
Theorem find_next_user_id_infers_from_calendar
    schedule future_events d last_user rest start :
  roster schedule d ≠ [] →
  select_last_scheduled_user_id schedule d = last_user :: rest →
  ¬ in_roster last_user (roster schedule d) →
  py_min (fe_start <$> future_events) = Ok start →
  earliest_start future_events start ∧
  ((∃ u, u ∈ roster schedule d ∧
         most_recent schedule start (roster schedule d) d u ∧
         picks_successor_of schedule future_events d u) ∨
   ((∀ e, e ∈ tbl_event d →
          ¬ qualifies schedule start (roster schedule d) e) ∧
    ∃ first, roster schedule d !! 0%nat = Some first ∧
             find_next_user_id schedule future_events d = Ok (Some first))).
Proof.
  intros Hr Hs Hnin Hmin. split; [by apply py_min_earliest|].
  destruct (guess_last_scheduled_user schedule start (roster schedule d) d)
    as [u|] eqn:Hguess.
  - left. exists u. split_and!.
    + by eapply guess_last_scheduled_user_in_roster.
    + by apply guess_last_scheduled_user_Some.
    + by eapply picks_successor_of_inferred.
  - right. split; [by apply guess_last_scheduled_user_None|].
    by eapply find_next_user_id_first.
Qed.

(** C7.  The roster is the intersection of the in-rotation members of the
    schedule's roster with the users of its [schedule_order] rows, listed by
    priority and, for equal priorities, by user identifier; with no
    in-rotation member or no [schedule_order] row it is empty, and the call
    returns [None] without raising, whatever [future_events] is. *)
Theorem roster_is_ordered_intersection schedule d :
  (∀ u, u ∈ roster schedule d ↔
        (∃ r, r ∈ tbl_roster_user d ∧ ru_roster_id r = s_roster_id schedule ∧
              ru_in_rotation r = true ∧ ru_user_id r = u) ∧
        (∃ o, o ∈ tbl_schedule_order d ∧ so_schedule_id o = s_id schedule ∧
              so_user_id o = u)) ∧
  (roster schedule d = so_user_id <$> roster_rows schedule d ∧
   roster_rows schedule d ≡ₚ
     filter (λ o, so_schedule_id o = s_id schedule ∧
                  so_user_id o ∈ roster_users schedule d)
            (tbl_schedule_order d) ∧
   StronglySorted
     (λ a b, so_priority a < so_priority b ∨
             (so_priority a = so_priority b ∧ so_user_id a ≤ so_user_id b))
     (roster_rows schedule d)) ∧
  ((∀ r, r ∈ tbl_roster_user d →
         ¬ (ru_roster_id r = s_roster_id schedule ∧ ru_in_rotation r = true)) ∨
   (∀ o, o ∈ tbl_schedule_order d → so_schedule_id o ≠ s_id schedule) →
   roster schedule d = [] ∧
   ∀ future_events, find_next_user_id schedule future_events d = Ok None).
Proof.
  split_and!.
  - apply elem_of_roster.
  - done.
  - apply roster_rows_perm.
  - apply roster_rows_sorted.
  - intros Hempty.
    assert (roster schedule d = []) as Hnil.
    { destruct (roster schedule d) as [|u l] eqn:Hr; [done|]. exfalso.
      assert (u ∈ roster schedule d) as Hu by (rewrite Hr; left).
      apply elem_of_roster in Hu as [(r & Hr1 & Hr2 & Hr3 & _) (o & Ho1 & Ho2 & _)].
      destruct Hempty as [Hno|Hno]; [by eapply Hno | by eapply Hno]. }
    split; [done|]. intros fe. by apply find_next_user_id_empty_roster.
Qed.


End find_next_user_id_claims.

Section find_next_user_id_examples.
Import RoundRobin.

Lemma find_next_user_id_rotation_witness :
  picks_successor_of Sample.weekly (Sample.week 1000)
    (Sample.tables (Some 101) None []) 101.
Proof.
  destruct (find_next_user_id_rotation Sample.weekly (Sample.week 1000)
              (Sample.tables (Some 101) None []) (Some 101) [])
    as (Hstored & _ & _).
  - by vm_compute.
  - by vm_compute.
  - apply Hstored; [done|]. vm_compute. left.
Defined.

Lemma find_next_user_id_infers_from_calendar_witness :
  ∃ u, most_recent Sample.weekly 1000
         (roster Sample.weekly
            (Sample.tables (Some 103) None [Sample.manual_event 101 5 6]))
         (Sample.tables (Some 103) None [Sample.manual_event 101 5 6]) u ∧
       picks_successor_of Sample.weekly (Sample.week 1000)
         (Sample.tables (Some 103) None [Sample.manual_event 101 5 6]) u.
Proof.
  destruct (find_next_user_id_infers_from_calendar Sample.weekly
              (Sample.week 1000)
              (Sample.tables (Some 103) None [Sample.manual_event 101 5 6])
              (Some 103) [] 1000)
    as (_ & [(u & _ & Hrecent & Hpick)|(Hnone & _)]).
  - by vm_compute.
  - by vm_compute.
  - vm_compute. intros Hin. repeat (apply elem_of_cons in Hin as [?|Hin]; [done|]).
    by apply elem_of_nil in Hin.
  - by vm_compute.
  - by exists u.
  - exfalso. apply (Hnone (Sample.manual_event 101 5 6)); [left|].
    unfold qualifies. split_and!; [done | vm_compute; left | vm_compute; discriminate | done].
Defined.

Lemma roster_is_ordered_intersection_witness :
  roster Sample.weekly Sample.no_roster = [] ∧
  ∀ future_events,
    find_next_user_id Sample.weekly future_events Sample.no_roster = Ok None.
Proof.
  apply (roster_is_ordered_intersection Sample.weekly Sample.no_roster).
  left. intros r Hr. by apply elem_of_nil in Hr.
Defined.



End find_next_user_id_examples.

(** ** [create_events] *)

Section create_events_facts.
Import RoundRobin.

Lemma insert_event_fold team_id schedule_id user_id role_id link_id events st :
  let st' := foldl (λ s ev, insert_event team_id schedule_id (fe_start ev)
                              (fe_end ev) user_id role_id link_id s)
                   st events in
  tbl_event (db st') =
    tbl_event (db st) ++
    rows_from (auto_increment st) team_id schedule_id user_id role_id link_id
      events ∧
  tbl_schedule (db st') = tbl_schedule (db st) ∧
  tbl_roster_user (db st') = tbl_roster_user (db st) ∧
  tbl_schedule_order (db st') = tbl_schedule_order (db st) ∧
  auto_increment st' = auto_increment st + Z.of_nat (length events) ∧
  link_count st' = link_count st.
Proof.
  revert st. induction events as [|ev events IH]; intros st; simpl.
  - rewrite app_nil_r. split_and!; [done..|lia|done].
  - destruct (IH (insert_event team_id schedule_id (fe_start ev) (fe_end ev)
                    user_id role_id link_id st))
      as (Hev & Hs & Hru & Hso & Hai & Hlc).
    rewrite Hev, Hs, Hru, Hso, Hai, Hlc. simpl.
    split_and!; [|done..|lia|done].
    rewrite <- app_assoc. f_equal. unfold rows_from. simpl.
    rewrite Z.add_0_r. f_equal.
    apply imap_ext. intros k x _. simpl. f_equal. lia.
Qed.

(** What one call of [create_events] does to each table and counter. *)
Lemma create_events_effect team_id schedule_id user_id events role_id skip_match st :
  let st' := create_events team_id schedule_id user_id events role_id
               skip_match st in
  tbl_event (db st') =
    tbl_event (db st) ++
    rows_from (auto_increment st) team_id schedule_id user_id role_id
      (link_for events st) events ∧
  tbl_schedule (db st') =
    set_last_scheduled_user_id (Some user_id) <$> tbl_schedule (db st) ∧
  tbl_roster_user (db st') = tbl_roster_user (db st) ∧
  tbl_schedule_order (db st') = tbl_schedule_order (db st) ∧
  auto_increment st' = auto_increment st + Z.of_nat (length events) ∧
  link_count st' =
    match events with [_] => link_count st | _ => S (link_count st) end.
Proof.
  unfold create_events.
  destruct events as [|ev [|ev' events]].
  - simpl. rewrite app_nil_r. split_and!; [done..|lia|done].
  - simpl. unfold rows_from, event_of. simpl. rewrite Z.add_0_r.
    split_and!; [done..|lia|done].
  - set (evs := ev :: ev' :: events).
    pose proof (insert_event_fold team_id schedule_id user_id role_id
                  (Some (link_count st)) evs (gen_link_id st).2) as Hfold.
    simpl in Hfold. simpl.
    destruct Hfold as (Hev & Hs & Hru & Hso & Hai & Hlc).
    rewrite Hev, Hs, Hru, Hso, Hai, Hlc. done.
Qed.
End create_events_facts.

Section create_events_claims.
Import RoundRobin.

Lemma elem_of_rows_from id team_id schedule_id user_id role_id link_id events e :
  e ∈ rows_from id team_id schedule_id user_id role_id link_id events →
  ev_link_id e = link_id ∧ ev_team_id e = team_id ∧ ev_role_id e = role_id ∧
  ev_user_id e = user_id ∧ ev_schedule_id e = Some schedule_id ∧
  ∃ ev, ev ∈ events ∧ ev_start e = fe_start ev ∧ ev_end e = fe_end ev.
Proof.
  unfold rows_from. intros (k & ev & -> & Hk)%elem_of_lookup_imap.
  split_and!; [done..|]. exists ev. split; [|done].
  by eapply list_elem_of_lookup_2.
Qed.

Lemma length_rows_from id team_id schedule_id user_id role_id link_id events :
  length (rows_from id team_id schedule_id user_id role_id link_id events) =
  length events.
Proof. unfold rows_from. by rewrite length_imap. Qed.

(** C8.  A period of exactly one segment is written as one row without a link
    id, and no link id is drawn.  A period of more than one segment is
    written as one row per segment, all carrying the same link id; that id is
    drawn once in the call; and, when every link id stored so far has been
    drawn, it occurs in no earlier row, and the same holds again after the
    call. *)
Theorem create_events_link_id team_id schedule_id user_id events role_id skip_match st :
  let st' := create_events team_id schedule_id user_id events role_id
               skip_match st in
  (∀ ev, events = [ev] →
     tbl_event (db st') =
       tbl_event (db st) ++
       [event_of (auto_increment st) team_id schedule_id user_id role_id None ev] ∧
     link_count st' = link_count st) ∧
  ((1 < length events)%nat →
     ∃ rows,
       tbl_event (db st') = tbl_event (db st) ++ rows ∧
       length rows = length events ∧
       Forall (λ e, ev_link_id e = Some (link_count st)) rows ∧
       link_count st' = S (link_count st) ∧
       (links_drawn st →
          (∀ e, e ∈ tbl_event (db st) → ev_link_id e ≠ Some (link_count st)) ∧
          links_drawn st')).
Proof.
  intros st'.
  destruct (create_events_effect team_id schedule_id user_id events role_id
              skip_match st) as (Hev & _ & _ & _ & _ & Hlc).
  fold st' in Hev, Hlc. split.
  - intros ev ->. split; [|done]. rewrite Hev. unfold rows_from. simpl.
    by rewrite Z.add_0_r.
  - intros Hlen.
    assert (link_for events st = Some (link_count st)) as Hlink
      by (by destruct events as [|? [|? ?]]; simpl in *; try lia).
    assert (link_count st' = S (link_count st)) as Hlc'
      by (by destruct events as [|? [|? ?]]; simpl in *; try lia).
    rewrite Hlink in Hev.
    eexists. split_and!; [exact Hev | apply length_rows_from | | done |].
    + apply Forall_forall. by intros e (? & _)%elem_of_rows_from.
    + intros Hdrawn. split.
      * intros e He Hl. specialize (Hdrawn e _ He Hl). lia.
      * intros e l. rewrite Hev, Hlc'.
        intros [He|He]%elem_of_app Hl.
        -- specialize (Hdrawn e l He Hl). lia.
        -- apply elem_of_rows_from in He as (Hl' & _).
           rewrite Hl' in Hl. injection Hl as <-. lia.
Qed.

Lemma create_events_link_id_witness :
  ∃ rows,
    tbl_event (db (create_events 10 1 101
                     [ {| fe_start := 0; fe_end := 43200 |};
                       {| fe_start := 86400; fe_end := 129600 |} ]
                     20 true (Sample.connection (Sample.tables None None [])))) =
      [] ++ rows ∧
    length rows = 2%nat ∧
    Forall (λ e, ev_link_id e = Some 0%nat) rows.
Proof.
  destruct (create_events_link_id 10 1 101
              [ {| fe_start := 0; fe_end := 43200 |};
                {| fe_start := 86400; fe_end := 129600 |} ]
              20 true (Sample.connection (Sample.tables None None [])))
    as (_ & Hmany).
  destruct Hmany as (rows & Hev & Hlen & Hlink & _); [simpl; lia|].
  by exists rows.
Defined.

(** The writer never looks at the events already stored: a segment that an
    existing event covers is written once more. *)
Lemma create_events_ignores_covering_event team_id schedule_id user_id ev role_id skip_match st :
  length (filter (covers team_id role_id ev)
            (tbl_event (db (create_events team_id schedule_id user_id [ev]
                              role_id skip_match st)))) =
  S (length (filter (covers team_id role_id ev) (tbl_event (db st)))).
Proof.
  simpl. rewrite filter_app, length_app, filter_cons, decide_True by done.
  simpl. lia.
Qed.

End create_events_claims.

Section populate_examples.

(** C2 fails on the code.  The first week of the sample schedule is already
    covered by a manually created event of the same team and role with the
    exact window; populate writes that window a second time. *)
Theorem populate_duplicates_covered_segment :
  let st := Sample.connection
              (Sample.tables None None [Sample.manual_event 102 1000 605800]) in
  (λ e, (ev_team_id e, ev_role_id e, ev_start e, ev_end e, ev_schedule_id e))
    <$> tbl_event (db (Api.post_populate Sample.weekly 1000 1000 st).2) =
  [ (10, 20, 1000, 605800, None);
    (10, 20, 1000, 605800, Some 1);
    (10, 20, 605800, 1210600, Some 1) ].
Proof. by vm_compute. Qed.

(** C4 fails on the code.  Populating schedule 1 overwrites the cursor of
    schedule 2, which belongs to another team and roster: it held user 205
    and ends up holding the user last chosen for schedule 1. *)
Theorem populate_overwrites_other_cursor :
  let st := Sample.connection (Sample.tables None (Some 205) []) in
  tbl_schedule (db (Api.post_populate Sample.weekly 1000 1000 st).2) =
  [ Sample.schedule_row_1 (Some 102); Sample.schedule_row_2 (Some 102) ].
Proof. by vm_compute. Qed.

End populate_examples.

(** ** The cursor reset *)

Section cursor_reset.
Import RoundRobin.

Lemma set_last_scheduled_user_id_same_but_cursor v r1 r2 :
  same_but_cursor r1 r2 →
  set_last_scheduled_user_id v r1 = set_last_scheduled_user_id v r2.
Proof.
  intros (? & ? & ? & ? & ? & ?). unfold set_last_scheduled_user_id.
  congruence.
Qed.

(** Writing the cursor of every row makes cursor variants equal. *)
Lemma update_last_scheduled_user_id_variant v st1 st2 :
  cursor_variant st1 st2 →
  update_last_scheduled_user_id v st1 = update_last_scheduled_user_id v st2.
Proof.
  intros (Hs & Hru & Hso & Hev & Hai & Hlc).
  unfold update_last_scheduled_user_id. rewrite Hru, Hso, Hev, Hai, Hlc.
  do 2 f_equal.
  induction Hs as [|r1 r2 l1 l2 Hr _ IH]; [done|].
  rewrite !fmap_cons, IH.
  by rewrite (set_last_scheduled_user_id_same_but_cursor v r1 r2).
Qed.

Lemma update_last_scheduled_user_id_all v st r :
  r ∈ tbl_schedule (db (update_last_scheduled_user_id v st)) →
  sr_last_scheduled_user_id r = v.
Proof. simpl. by intros (r' & -> & _)%list_elem_of_fmap. Qed.

(** C3.  [populate] and [preview] run the inherited method on the connection
    in which the stored cursor has been set to NULL, so two connections that
    differ only in stored cursors give the same outcome and the same tables,
    events included, whatever the inherited method does after the reset; in
    particular with the engine's [populate] and [preview]. *)
Theorem populate_forgets_stored_cursor schedule start_time now st1 st2 :
  cursor_variant st1 st2 →
  (populate schedule start_time now st1 =
     Default.populate self schedule start_time now
       (update_last_scheduled_user_id None st1) ∧
   preview schedule start_time now st1 =
     Default.preview self schedule start_time now
       (update_last_scheduled_user_id None st1)) ∧
  (∀ r, r ∈ tbl_schedule (db (update_last_scheduled_user_id None st1)) →
        sr_last_scheduled_user_id r = None) ∧
  (∀ R (super : _ → Z → Z → state → result R * state),
      with_cursor_reset super schedule start_time now st1 =
      with_cursor_reset super schedule start_time now st2) ∧
  populate schedule start_time now st1 = populate schedule start_time now st2 ∧
  preview schedule start_time now st1 = preview schedule start_time now st2.
Proof.
  intros Hvar.
  pose proof (update_last_scheduled_user_id_variant None _ _ Hvar) as Hreset.
  split_and!.
  - done.
  - done.
  - intros r. apply update_last_scheduled_user_id_all.
  - intros R super. unfold with_cursor_reset. by rewrite Hreset.
  - unfold populate, with_cursor_reset. by rewrite Hreset.
  - unfold preview, with_cursor_reset. by rewrite Hreset.
Qed.

End cursor_reset.

Section cursor_reset_examples.
Import RoundRobin.

Lemma populate_forgets_stored_cursor_witness :
  populate Sample.weekly 1000 1000
    (Sample.connection (Sample.tables (Some 101) None [])) =
  populate Sample.weekly 1000 1000
    (Sample.connection (Sample.tables (Some 102) (Some 205) [])).
Proof.
  apply (populate_forgets_stored_cursor Sample.weekly 1000 1000
           (Sample.connection (Sample.tables (Some 101) None []))
           (Sample.connection (Sample.tables (Some 102) (Some 205) []))).
  split_and!; [|done..]. repeat constructor.
Defined.

End cursor_reset_examples.

(** ** An invalid start *)

Section invalid_start.
Import RoundRobin.

(** The scheduler nulls the cursors inside the transaction before the
    inherited method rejects the start. *)
Lemma populate_invalid_start schedule start_time now st :
  Default.invalid_start schedule start_time now →
  populate schedule start_time now st =
    (Raise HTTPBadRequest, update_last_scheduled_user_id None st).
Proof.
  intros Hinv. unfold populate, with_cursor_reset, Default.populate,
    Default.pipeline. by rewrite decide_True by done.
Qed.

(** C9.  A start earlier than now minus the horizon is answered with 400,
    and the tables after the request are the tables before it: no schedule
    row has changed and no event has been written. *)
Theorem post_populate_invalid_start schedule start_time now st :
  Default.invalid_start schedule start_time now →
  ∃ st', Api.post_populate schedule start_time now st = (Api.Http400, st') ∧
         db st' = db st.
Proof.
  intros Hinv. unfold Api.post_populate.
  rewrite populate_invalid_start by done. by eexists.
Qed.

Lemma post_populate_invalid_start_witness :
  ∃ st', Api.post_populate Sample.weekly 1000 (1000 + 14 * 86400 + 1)
           (Sample.connection (Sample.tables (Some 101) None [])) =
           (Api.Http400, st') ∧
         db st' = Sample.tables (Some 101) None [].
Proof.
  apply (post_populate_invalid_start Sample.weekly 1000 (1000 + 14 * 86400 + 1)
           (Sample.connection (Sample.tables (Some 101) None []))).
  unfold Default.invalid_start. simpl. lia.
Defined.

End invalid_start.

(** ** Preview against populate *)

Section forgetting_identifiers.
Import RoundRobin.

Lemma forget_ids_renumber by_id by_link e :
  forget_ids (renumber by_id by_link e) = forget_ids e.
Proof. done. Qed.

Lemma filter_fmap_iff {A} (P : A → Prop) `{!∀ x, Decision (P x)}
    (f : A → A) (l : list A) :
  (∀ x, P (f x) ↔ P x) → filter P (f <$> l) = f <$> filter P l.
Proof.
  intros Hf. induction l as [|x l IH]; [done|].
  rewrite fmap_cons, !filter_cons.
  destruct (decide (P x)) as [Hx|Hx].
  - rewrite decide_True by (by apply Hf). by rewrite fmap_cons, IH.
  - rewrite decide_False by (by rewrite Hf). done.
Qed.

Lemma max_start_forget_ids evs : max_start (forget_ids <$> evs) = max_start evs.
Proof. unfold max_start. by rewrite <- list_fmap_compose. Qed.

Lemma group_by_user_forget_ids evs :
  group_by_user (forget_ids <$> evs) = group_by_user evs.
Proof.
  unfold group_by_user. rewrite <- list_fmap_compose.
  apply list_fmap_ext. intros _ u _. f_equal.
  rewrite filter_fmap_iff by done. apply max_start_forget_ids.
Qed.

(** The inference query reads no generated identifier. *)
Lemma guess_last_scheduled_user_forget schedule start roster d :
  guess_last_scheduled_user schedule start roster (forget_db d) =
  guess_last_scheduled_user schedule start roster d.
Proof.
  unfold guess_last_scheduled_user. simpl.
  rewrite filter_fmap_iff by done. by rewrite group_by_user_forget_ids.
Qed.

Lemma find_next_user_id_forget schedule future_events d :
  find_next_user_id schedule future_events (forget_db d) =
  find_next_user_id schedule future_events d.
Proof.
  unfold find_next_user_id.
  change (roster schedule (forget_db d)) with (roster schedule d).
  change (select_last_scheduled_user_id schedule (forget_db d))
    with (select_last_scheduled_user_id schedule d).
  destruct (select_last_scheduled_user_id schedule d) as [|last_user ?]; [done|].
  destruct (roster schedule d) as [|u0 r]; [done|].
  destruct (decide (in_roster last_user (u0 :: r))); [done|].
  destruct (py_min (fe_start <$> future_events)); [|done]. simpl.
  by rewrite guess_last_scheduled_user_forget.
Qed.

End forgetting_identifiers.

Section preview_then_populate.
Import RoundRobin.
Context (old : list event_row) (by_id : Z) (by_link : nat).

Lemma run_sim_forget st1 st2 :
  run_sim old by_id by_link st1 st2 → forget_db (db st1) = forget_db (db st2).
Proof.
  intros (Hs & Hru & Hso & (new & Hev1 & Hev2) & _ & _).
  unfold forget_db. rewrite Hs, Hru, Hso, Hev1, Hev2. f_equal.
  rewrite !fmap_app. f_equal. rewrite <- list_fmap_compose.
  by apply list_fmap_ext.
Qed.

Lemma run_sim_find_next_user_id schedule future_events st1 st2 :
  run_sim old by_id by_link st1 st2 →
  find_next_user_id schedule future_events (db st1) =
  find_next_user_id schedule future_events (db st2).
Proof.
  intros Hsim%run_sim_forget.
  rewrite <- (find_next_user_id_forget _ _ (db st1)).
  rewrite <- (find_next_user_id_forget _ _ (db st2)). by rewrite Hsim.
Qed.

Lemma rows_from_renumber id team_id schedule_id user_id role_id link_id events :
  rows_from (id + by_id) team_id schedule_id user_id role_id
    ((λ l, (l + by_link)%nat) <$> link_id) events =
  renumber by_id by_link <$>
    rows_from id team_id schedule_id user_id role_id link_id events.
Proof.
  unfold rows_from. rewrite fmap_imap. apply imap_ext. intros k ev _.
  unfold renumber, event_of. simpl. f_equal. lia.
Qed.

Lemma run_sim_create_events team_id schedule_id user_id events role_id skip_match st1 st2 :
  run_sim old by_id by_link st1 st2 →
  run_sim old by_id by_link
    (create_events team_id schedule_id user_id events role_id skip_match st1)
    (create_events team_id schedule_id user_id events role_id skip_match st2).
Proof.
  intros (Hs & Hru & Hso & (new & Hev1 & Hev2) & Hai & Hlc).
  destruct (create_events_effect team_id schedule_id user_id events role_id
              skip_match st1) as (Hev1' & Hs1' & Hru1' & Hso1' & Hai1' & Hlc1').
  destruct (create_events_effect team_id schedule_id user_id events role_id
              skip_match st2) as (Hev2' & Hs2' & Hru2' & Hso2' & Hai2' & Hlc2').
  unfold run_sim. rewrite Hs1', Hs2', Hru1', Hru2', Hso1', Hso2', Hai1', Hai2',
    Hlc1', Hlc2', Hev1', Hev2', Hs, Hru, Hso.
  split_and!; [done..| | lia |].
  - exists (new ++ rows_from (auto_increment st1) team_id schedule_id user_id
                     role_id (link_for events st1) events).
    rewrite Hev1, Hev2, <- !app_assoc. split; [done|].
    rewrite fmap_app. do 2 f_equal.
    rewrite <- rows_from_renumber, Hai. f_equal.
    unfold link_for. rewrite Hlc. by destruct events as [|? [|? ?]].
  - rewrite Hlc. by destruct events as [|? [|? ?]].
Qed.

(** The two runs take the same decisions period by period. *)
Lemma run_sim_schedule_periods schedule ps st1 st2 :
  run_sim old by_id by_link st1 st2 →
  (Default.schedule_periods self schedule ps st1).1 =
  (Default.schedule_periods self schedule ps st2).1 ∧
  run_sim old by_id by_link
    (Default.schedule_periods self schedule ps st1).2
    (Default.schedule_periods self schedule ps st2).2.
Proof.
  revert st1 st2. induction ps as [|epoch ps IH]; intros st1 st2 Hsim; [done|].
  simpl. rewrite <- (run_sim_find_next_user_id schedule epoch st1 st2 Hsim).
  destruct (find_next_user_id schedule epoch (db st1)) as [[user_id|]|e].
  - apply IH. by apply run_sim_create_events.
  - by apply IH.
  - done.
Qed.

Lemma run_sim_pipeline schedule start_time now st1 st2 :
  run_sim old by_id by_link st1 st2 →
  (Default.pipeline self schedule start_time now st1).1 =
  (Default.pipeline self schedule start_time now st2).1 ∧
  run_sim old by_id by_link
    (Default.pipeline self schedule start_time now st1).2
    (Default.pipeline self schedule start_time now st2).2.
Proof.
  intros Hsim. unfold Default.pipeline.
  destruct (decide (Default.invalid_start schedule start_time now)); [done|].
  by apply run_sim_schedule_periods.
Qed.

End preview_then_populate.

Section preview_populate_claim.
Import RoundRobin.

Lemma schedule_periods_link_count schedule ps st :
  (link_count st ≤ link_count (Default.schedule_periods self schedule ps st).2)%nat.
Proof.
  revert st. induction ps as [|epoch ps IH]; intros st; [done|]. simpl.
  destruct (find_next_user_id schedule epoch (db st)) as [[user_id|]|e];
    [|done..].
  etrans; [|apply IH].
  destruct (create_events_effect (s_team_id schedule) (s_id schedule) user_id
              epoch (s_role_id schedule) true st) as (_ & _ & _ & _ & _ & ->).
  destruct epoch as [|? [|? ?]]; lia.
Qed.

Lemma pipeline_link_count schedule start_time now st :
  (link_count st ≤
   link_count (Default.pipeline self schedule start_time now st).2)%nat.
Proof.
  unfold Default.pipeline. case_decide; [done|].
  apply schedule_periods_link_count.
Qed.

(** A populate request that follows a preview request starts from a
    connection related to the one the preview started from. *)
Lemma run_sim_after_rollback st st' :
  (link_count st ≤ link_count st')%nat →
  run_sim (tbl_event (db st)) (auto_increment st' - auto_increment st)
    (link_count st' - link_count st)
    (update_last_scheduled_user_id None st)
    (update_last_scheduled_user_id None (Api.rollback st st')).
Proof.
  intros Hle. unfold run_sim. simpl. split_and!; [done..| |lia|lia].
  exists []. simpl. by rewrite !app_nil_r.
Qed.

(** C1.  Preview a schedule, then populate it with the same arguments.  The
    preview leaves the tables as they were.  If it answers with a list of
    would-be events, populate succeeds and appends to [event] exactly those
    events with their keys and link ids shifted by fixed offsets, so the rows
    populate adds equal the previewed ones once the generated identifiers
    are blanked.  If the preview is refused, populate is refused with the
    same status and persists nothing. *)
Theorem preview_matches_populate schedule start_time now st :
  let '(response1, st1) := Api.get_preview schedule start_time now st in
  let '(response2, st2) := Api.post_populate schedule start_time now st1 in
  db st1 = db st ∧
  match response1 with
  | Api.Http200 would_be =>
      response2 = Api.Http200 [] ∧
      (∃ by_id by_link,
          tbl_event (db st2) =
            tbl_event (db st) ++ (renumber by_id by_link <$> would_be)) ∧
      forget_ids <$> drop (length (tbl_event (db st))) (tbl_event (db st2)) =
        forget_ids <$> would_be
  | _ => response2 = response1 ∧ db st2 = db st
  end.
Proof.
  unfold Api.get_preview, Api.post_populate, preview, populate,
    with_cursor_reset, Default.preview, Default.populate.
  set (st0 := update_last_scheduled_user_id None st).
  pose proof (pipeline_link_count schedule start_time now st0) as Hle.
  destruct (Default.pipeline self schedule start_time now st0)
    as [r1 st1'] eqn:Hrun1.
  simpl in Hle.
  pose proof (run_sim_after_rollback st st1' Hle) as Hsim. fold st0 in Hsim.
  apply (run_sim_pipeline _ _ _ schedule start_time now) in Hsim.
  rewrite Hrun1 in Hsim. simpl in Hsim.
  destruct Hsim as (Hr & _ & _ & _ & (new & Hev1 & Hev2) & _ & _).
  destruct r1 as [[]|e]; [|destruct e]; simpl;
    destruct (Default.pipeline self schedule start_time now
                (update_last_scheduled_user_id None (Api.rollback st st1')))
      as [r2 st2']; simpl in *; subst r2; [|done..].
  split; [done|]. rewrite Hev1, Hev2, drop_app_length.
  split_and!; [done | by eauto |].
  rewrite drop_app_length, <- list_fmap_compose. by apply list_fmap_ext.
Qed.

End preview_populate_claim.

(** ** What a run leaves alone *)

Section frame.
Import RoundRobin.

#[local] Instance same_but_cursor_refl : Reflexive same_but_cursor.
Proof. intros r. by repeat split. Qed.

#[local] Instance same_but_cursor_trans : Transitive same_but_cursor.
Proof.
  intros r1 r2 r3 (? & ? & ? & ? & ? & ?) (? & ? & ? & ? & ? & ?).
  repeat split; congruence.
Qed.

Lemma only_cursors_and_new_events_refl st : only_cursors_and_new_events st st.
Proof.
  split_and!; [done..|]. exists []. by rewrite app_nil_r.
Qed.

Lemma only_cursors_and_new_events_trans st1 st2 st3 :
  only_cursors_and_new_events st1 st2 →
  only_cursors_and_new_events st2 st3 →
  only_cursors_and_new_events st1 st3.
Proof.
  intros (Hs & Hru & Hso & new & Hev) (Hs' & Hru' & Hso' & new' & Hev').
  split_and!; [by etrans | congruence | congruence |].
  exists (new ++ new'). by rewrite Hev', Hev, app_assoc.
Qed.

Lemma set_last_scheduled_user_id_frame v (rows : list schedule_row) :
  Forall2 same_but_cursor rows (set_last_scheduled_user_id v <$> rows).
Proof.
  induction rows as [|r rows IH]; [constructor|].
  rewrite fmap_cons. constructor; [by repeat split | done].
Qed.

Lemma update_last_scheduled_user_id_frame v st :
  only_cursors_and_new_events st (update_last_scheduled_user_id v st).
Proof.
  split_and!; [apply set_last_scheduled_user_id_frame | done..|].
  exists []. simpl. by rewrite app_nil_r.
Qed.

Lemma create_events_frame team_id schedule_id user_id events role_id skip_match st :
  only_cursors_and_new_events st
    (create_events team_id schedule_id user_id events role_id skip_match st).
Proof.
  destruct (create_events_effect team_id schedule_id user_id events role_id
              skip_match st) as (Hev & Hs & Hru & Hso & _ & _).
  split_and!; [|done..|by eauto].
  rewrite Hs. apply set_last_scheduled_user_id_frame.
Qed.

Lemma schedule_periods_frame schedule ps st :
  only_cursors_and_new_events st
    (Default.schedule_periods self schedule ps st).2.
Proof.
  revert st. induction ps as [|epoch ps IH]; intros st; simpl.
  - apply only_cursors_and_new_events_refl.
  - destruct (find_next_user_id schedule epoch (db st)) as [[user_id|]|e];
      [|done|apply only_cursors_and_new_events_refl].
    eapply only_cursors_and_new_events_trans; [|apply IH].
    apply create_events_frame.
Qed.

(** A populate run writes cursors and appends events; every other column of
    every schedule row, the rosters and the priorities stay as they were. *)
Lemma populate_frame schedule start_time now st :
  only_cursors_and_new_events st (populate schedule start_time now st).2.
Proof.
  unfold populate, with_cursor_reset, Default.populate, Default.pipeline.
  eapply only_cursors_and_new_events_trans;
    [apply update_last_scheduled_user_id_frame|].
  case_decide; [apply only_cursors_and_new_events_refl|].
  apply schedule_periods_frame.
Qed.

End frame.

(** ** The number of periods *)

Section recurrence_expander.

(** For a positive period and a horizon that is not negative, the expander
    produces [ceil(H·86400/P)] periods: the least number of periods that
    cover the horizon. *)
Lemma period_count_ceil schedule :
  0 < s_period schedule →
  0 ≤ s_auto_populate_threshold schedule →
  (Z.of_nat (Default.period_count schedule) - 1) * s_period schedule
    < s_auto_populate_threshold schedule * 86400
    ≤ Z.of_nat (Default.period_count schedule) * s_period schedule.
Proof.
  intros HP HH. unfold Default.period_count.
  set (a := s_auto_populate_threshold schedule * 86400).
  set (P := s_period schedule) in *.
  pose proof (Z.mul_div_le (- a) P HP) as Hle.
  pose proof (Z.mul_succ_div_gt (- a) P HP) as Hgt.
  assert (Hq : (- a) `div` P ≤ 0) by (apply Z.div_le_upper_bound; lia).
  rewrite Z2Nat.id by lia. nia.
Qed.

Lemma length_periods schedule start_time :
  length (Default.periods schedule start_time) = Default.period_count schedule.
Proof. unfold Default.periods. by rewrite length_fmap, length_seq. Qed.

(** A horizon that is no multiple of the period is covered by one more
    period: ten days take two weekly periods, one day takes one. *)
Example period_count_rounds_up :
  Default.period_count Sample.weekly = 2%nat ∧
  Default.period_count Sample.ten_days = 2%nat ∧
  Default.period_count Sample.one_day = 1%nat.
Proof. by vm_compute. Qed.

End recurrence_expander.

(** ** The scenarios of the spec, run on the sample *)

Section scenarios.

(** A horizon of ten days over a weekly period: the second week is scheduled
    too, and the preview shows the two events populate then writes. *)
Example preview_then_populate_ten_days :
  let st := Sample.connection (Sample.tables None None []) in
  let '(response1, st1) := Api.get_preview Sample.ten_days 1000 1000 st in
  let '(_, st2) := Api.post_populate Sample.ten_days 1000 1000 st1 in
  response1 =
    Api.Http200
      [ event_of 2 10 1 101 20 None {| fe_start := 1000; fe_end := 605800 |};
        event_of 3 10 1 102 20 None {| fe_start := 605800; fe_end := 1210600 |} ] ∧
  tbl_event (db st2) =
      [ event_of 4 10 1 101 20 None {| fe_start := 1000; fe_end := 605800 |};
        event_of 5 10 1 102 20 None {| fe_start := 605800; fe_end := 1210600 |} ].
Proof. by vm_compute. Qed.

(** Roster of two, one weekly segment, horizon of 14 days, no prior events:
    two events, one per user in rotation order, back to back. *)
Example populate_two_weeks :
  (λ e, (ev_user_id e, ev_start e, ev_end e, ev_link_id e))
    <$> tbl_event (db (Api.post_populate Sample.weekly 1000 1000
                         (Sample.connection (Sample.tables None None []))).2) =
  [ (101, 1000, 605800, None); (102, 605800, 1210600, None) ].
Proof. by vm_compute. Qed.

(** With two segments per period, the preview draws the link ids 0 and 1 and
    the populate that follows draws 2 and 3, on otherwise equal rows. *)
Example preview_then_populate_half_days :
  let st := Sample.connection (Sample.tables None None []) in
  let '(response1, st1) := Api.get_preview Sample.half_days 1000 1000 st in
  let '(_, st2) := Api.post_populate Sample.half_days 1000 1000 st1 in
  response1 =
    Api.Http200
      [ event_of 2 10 1 101 20 (Some 0%nat) {| fe_start := 1000; fe_end := 44200 |};
        event_of 3 10 1 101 20 (Some 0%nat) {| fe_start := 87400; fe_end := 130600 |};
        event_of 4 10 1 102 20 (Some 1%nat) {| fe_start := 605800; fe_end := 649000 |};
        event_of 5 10 1 102 20 (Some 1%nat) {| fe_start := 692200; fe_end := 735400 |} ] ∧
  tbl_event (db st2) =
      [ event_of 6 10 1 101 20 (Some 2%nat) {| fe_start := 1000; fe_end := 44200 |};
        event_of 7 10 1 101 20 (Some 2%nat) {| fe_start := 87400; fe_end := 130600 |};
        event_of 8 10 1 102 20 (Some 3%nat) {| fe_start := 605800; fe_end := 649000 |};
        event_of 9 10 1 102 20 (Some 3%nat) {| fe_start := 692200; fe_end := 735400 |} ].
Proof. by vm_compute. Qed.

End scenarios.


(** * Further properties of round-robin.py *)

Section round_robin_more.
Import RoundRobin.

Lemma py_getitem_Ok (xs : list Z) (i : nat) (x : Z) :
  py_getitem xs i = Ok x → xs !! i = Some x.
Proof. unfold py_getitem. destruct (xs !! i); by intros [= ->]. Qed.

Lemma next_after_Ok roster last_user v :
  next_after roster last_user = Ok v → v ∈ roster.
Proof.
  unfold next_after. destruct last_user as [u|]; [|done].
  destruct (py_index u roster) as [i|]; [|done]. simpl.
  intros Hget%py_getitem_Ok. by eapply list_elem_of_lookup_2.
Qed.

(** X1.  Whoever [find_next_user_id] returns is a member of the roster: an
    in-rotation member of the schedule's roster who has a [schedule_order]
    row of the schedule. *)
Theorem find_next_user_id_picks_roster_member schedule future_events d u :
  find_next_user_id schedule future_events d = Ok (Some u) →
  u ∈ roster schedule d ∧
  (∃ r, r ∈ tbl_roster_user d ∧ ru_roster_id r = s_roster_id schedule ∧
        ru_in_rotation r = true ∧ ru_user_id r = u) ∧
  (∃ o, o ∈ tbl_schedule_order d ∧ so_schedule_id o = s_id schedule ∧
        so_user_id o = u).
Proof.
  intros Hrun. assert (u ∈ roster schedule d) as Hin.
  { destruct (select_last_scheduled_user_id schedule d) as [|last_user rest] eqn:Hs.
    { by rewrite find_next_user_id_no_schedule in Hrun. }
    destruct (decide (roster schedule d = [])) as [Hr|Hr].
    { by rewrite find_next_user_id_empty_roster in Hrun. }
    rewrite (find_next_user_id_unfold _ _ _ last_user rest) in Hrun by done.
    destruct (decide (in_roster last_user (roster schedule d))).
    - destruct (next_after (roster schedule d) last_user) as [v|] eqn:Hnext;
        [|done].
      injection Hrun as ->. by eapply next_after_Ok.
    - destruct (py_min (fe_start <$> future_events)) as [start|]; [|done].
      simpl in Hrun.
      destruct (guess_last_scheduled_user schedule start (roster schedule d) d)
        as [w|].
      + destruct (next_after (roster schedule d) (Some w)) as [v|] eqn:Hnext;
          [|done].
        injection Hrun as ->. by eapply next_after_Ok.
      + destruct (py_getitem (roster schedule d) 0) as [v|] eqn:Hget; [|done].
        injection Hrun as ->. apply py_getitem_Ok in Hget.
        by eapply list_elem_of_lookup_2. }
  split; [done|]. by apply elem_of_roster.
Qed.

Lemma find_next_user_id_picks_roster_member_witness :
  101 ∈ roster Sample.weekly (Sample.tables None None []).
Proof.
  apply (find_next_user_id_picks_roster_member Sample.weekly (Sample.week 1000)
           (Sample.tables None None []) 101).
  by vm_compute.
Defined.

(** X2.  [create_events] writes one row per segment, in order, under consecutive
    keys, each row carrying the arguments and the segment's window; it keeps
    every row [event] already held, leaves the rosters and the priorities
    alone, and in [schedule] writes the cursor of every row and no other
    column. *)
Theorem create_events_appends_rows team_id schedule_id user_id events role_id skip_match st :
  let st' := create_events team_id schedule_id user_id events role_id
               skip_match st in
  (∃ link_id,
     tbl_event (db st') =
       tbl_event (db st) ++
       imap (λ k ev,
               {| ev_id := auto_increment st + Z.of_nat k;
                  ev_team_id := team_id; ev_schedule_id := Some schedule_id;
                  ev_start := fe_start ev; ev_end := fe_end ev;
                  ev_user_id := user_id; ev_role_id := role_id;
                  ev_link_id := link_id |}) events) ∧
  length (tbl_event (db st')) =
    (length (tbl_event (db st)) + length events)%nat ∧
  tbl_roster_user (db st') = tbl_roster_user (db st) ∧
  tbl_schedule_order (db st') = tbl_schedule_order (db st) ∧
  Forall2 same_but_cursor (tbl_schedule (db st)) (tbl_schedule (db st')) ∧
  Forall (λ r, sr_last_scheduled_user_id r = Some user_id)
    (tbl_schedule (db st')).
Proof.
  intros st'.
  destruct (create_events_effect team_id schedule_id user_id events role_id
              skip_match st) as (Hev & Hs & Hru & Hso & _ & _).
  fold st' in Hev, Hs, Hru, Hso. split_and!; [by eauto | | done | done | |].
  - by rewrite Hev, length_app, length_rows_from.
  - rewrite Hs. apply set_last_scheduled_user_id_frame.
  - rewrite Hs. apply Forall_forall. by intros r (r' & -> & _)%list_elem_of_fmap.
Qed.

Lemma create_events_roster schedule team_id schedule_id user_id events role_id skip_match st :
  roster schedule
    (db (create_events team_id schedule_id user_id events role_id skip_match st)) =
  roster schedule (db st).
Proof.
  destruct (create_events_effect team_id schedule_id user_id events role_id
              skip_match st) as (_ & _ & Hru & Hso & _ & _).
  unfold roster, roster_rows, schedule_order, roster_users.
  by rewrite Hru, Hso.
Qed.

Lemma create_events_select schedule team_id schedule_id user_id events role_id skip_match st :
  select_last_scheduled_user_id schedule (db st) ≠ [] →
  ∃ rest,
    select_last_scheduled_user_id schedule
      (db (create_events team_id schedule_id user_id events role_id skip_match st)) =
    Some user_id :: rest.
Proof.
  destruct (create_events_effect team_id schedule_id user_id events role_id
              skip_match st) as (_ & Hs & _ & _ & _ & _).
  unfold select_last_scheduled_user_id. rewrite Hs.
  rewrite (filter_fmap_iff (λ r, sr_id r = s_id schedule)) by done.
  destruct (filter (λ r, sr_id r = s_id schedule) (tbl_schedule (db st)))
    as [|r rows]; [done|]. by eexists.
Qed.

(** X3.  After [create_events] has written for a roster member, the next
    [find_next_user_id] returns that member's successor, whatever the two
    calls are given as segments. *)
Theorem create_events_then_find_next_user_id
    schedule team_id schedule_id user_id events role_id skip_match st future_events :
  select_last_scheduled_user_id schedule (db st) ≠ [] →
  user_id ∈ roster schedule (db st) →
  picks_successor_of schedule future_events
    (db (create_events team_id schedule_id user_id events role_id skip_match st))
    user_id.
Proof.
  intros Hs Hin.
  destruct (create_events_select schedule team_id schedule_id user_id events
              role_id skip_match st Hs) as [rest Hsel].
  eapply picks_successor_of_stored; [done|]. by rewrite create_events_roster.
Qed.

Lemma create_events_then_find_next_user_id_witness :
  picks_successor_of Sample.weekly []
    (db (create_events 10 1 101 [] 20 true
           (Sample.connection (Sample.tables None None [])))) 101.
Proof.
  apply (create_events_then_find_next_user_id Sample.weekly 10 1 101 [] 20 true
           (Sample.connection (Sample.tables None None [])) []).
  - by vm_compute.
  - vm_compute. left.
Defined.

(** X4.  The roster lists no user twice when the schedule's priority table lists
    no user twice, and it is never longer than that table. *)
Theorem roster_NoDup schedule d :
  NoDup (so_user_id <$>
           filter (λ o, so_schedule_id o = s_id schedule) (tbl_schedule_order d)) →
  NoDup (roster schedule d) ∧
  (length (roster schedule d) ≤
   length (filter (λ o, so_schedule_id o = s_id schedule) (tbl_schedule_order d)))%nat.
Proof.
  intros Hnd. unfold roster, roster_rows, schedule_order.
  set (rows := filter (λ o, so_schedule_id o = s_id schedule)
                 (tbl_schedule_order d)) in *.
  pose proof (merge_sort_Permutation priority_order rows) as Hperm.
  split.
  - eapply NoDup_fmap_2_strong.
    + intros o1 o2 Ho1%list_elem_of_filter Ho2%list_elem_of_filter Heq.
      destruct Ho1 as [_ Ho1], Ho2 as [_ Ho2].
      rewrite Hperm in Ho1, Ho2.
      apply (NoDup_fmap_1 so_user_id) in Hnd as Hnd'.
      apply list_elem_of_lookup in Ho1 as [i Hi], Ho2 as [j Hj].
      assert (i = j) as ->.
      { eapply (NoDup_lookup (so_user_id <$> rows)); [done| |].
        - rewrite list_lookup_fmap, Hi. done.
        - rewrite list_lookup_fmap, Hj. simpl. by rewrite Heq. }
      congruence.
    + apply NoDup_filter. rewrite Hperm. by eapply NoDup_fmap_1.
  - rewrite length_fmap. etrans; [apply length_filter|]. by rewrite Hperm.
Qed.

Lemma roster_NoDup_witness :
  NoDup (roster Sample.weekly (Sample.tables None None [])).
Proof.
  apply (roster_NoDup Sample.weekly (Sample.tables None None [])).
  vm_compute.
  repeat (apply NoDup_cons_2; [rewrite ?elem_of_cons, ?elem_of_nil; lia|]).
  apply NoDup_nil_2.
Defined.

(** In a roster without repetition, the position found by [index] is the
    position of the user. *)
Lemma picks_successor_of_NoDup schedule future_events d u i :
  NoDup (roster schedule d) →
  roster schedule d !! i = Some u →
  picks_successor_of schedule future_events d u →
  ∃ next,
    roster schedule d !! ((i + 1) `mod` length (roster schedule d))%nat = Some next ∧
    find_next_user_id schedule future_events d = Ok (Some next).
Proof.
  intros Hnd Hi (j & next & Hj & _ & Hnext & Hrun).
  assert (j = i) as -> by (by eapply NoDup_lookup).
  by exists next.
Qed.

(** X5.  With at least two roster members and none listed twice, the user picked
    after a stored cursor that names a roster member is another user: nobody
    is scheduled twice in a row by the rotation. *)
Theorem find_next_user_id_not_twice_in_a_row schedule future_events d u rest next :
  NoDup (roster schedule d) →
  (2 ≤ length (roster schedule d))%nat →
  select_last_scheduled_user_id schedule d = Some u :: rest →
  u ∈ roster schedule d →
  find_next_user_id schedule future_events d = Ok (Some next) →
  next ≠ u.
Proof.
  intros Hnd Hlen Hs Hin Hrun.
  pose proof (picks_successor_of_stored schedule future_events d u rest Hs Hin)
    as Hpick.
  apply list_elem_of_lookup in Hin as [i Hi].
  destruct (picks_successor_of_NoDup _ _ _ _ _ Hnd Hi Hpick)
    as (next' & Hnext & Hrun').
  rewrite Hrun in Hrun'. injection Hrun' as <-.
  intros ->.
  assert (((i + 1) `mod` length (roster schedule d))%nat = i) as Heq
    by (by eapply NoDup_lookup).
  apply lookup_lt_Some in Hi.
  destruct (decide (i + 1 = length (roster schedule d))%nat) as [Hlast|Hlast].
  - rewrite Hlast, Nat.Div0.mod_same in Heq. lia.
  - rewrite Nat.mod_small in Heq by lia. lia.
Qed.

Lemma find_next_user_id_not_twice_in_a_row_witness :
  find_next_user_id Sample.weekly (Sample.week 1000)
    (Sample.tables (Some 101) None []) = Ok (Some 102) ∧
  (102 : Z) ≠ 101.
Proof.
  split; [by vm_compute|].
  apply (find_next_user_id_not_twice_in_a_row Sample.weekly (Sample.week 1000)
           (Sample.tables (Some 101) None []) 101 [] 102).
  - vm_compute.
    repeat (apply NoDup_cons_2; [rewrite ?elem_of_cons, ?elem_of_nil; lia|]).
    apply NoDup_nil_2.
  - vm_compute. lia.
  - by vm_compute.
  - vm_compute. left.
  - by vm_compute.
Defined.

(** Taking turns from a stored cursor: the [k]-th pick is the member [k + 1]
    positions after the cursor's user, cyclically. *)
Lemma take_turns_from_cursor schedule epochs st u i rest :
  NoDup (roster schedule (db st)) →
  roster schedule (db st) !! i = Some u →
  select_last_scheduled_user_id schedule (db st) = Some u :: rest →
  length (take_turns schedule epochs st) = length epochs ∧
  ∀ k, (k < length epochs)%nat →
       take_turns schedule epochs st !! k =
       roster schedule (db st) !! ((i + 1 + k) `mod` length (roster schedule (db st)))%nat.
Proof.
  revert st u i rest.
  induction epochs as [|epoch epochs IH]; intros st u i rest Hnd Hi Hs.
  { split; [done|]. simpl. lia. }
  assert (u ∈ roster schedule (db st)) as Hin
    by (by eapply list_elem_of_lookup_2).
  destruct (picks_successor_of_NoDup schedule epoch (db st) u i Hnd Hi
              (picks_successor_of_stored schedule epoch (db st) u rest Hs Hin))
    as (next & Hnext & Hrun).
  simpl. rewrite Hrun.
  set (st' := create_events (s_team_id schedule) (s_id schedule) next epoch
                (s_role_id schedule) true st).
  pose proof (create_events_roster schedule (s_team_id schedule)
                (s_id schedule) next epoch (s_role_id schedule) true st)
    as Hroster.
  destruct (create_events_select schedule (s_team_id schedule)
              (s_id schedule) next epoch (s_role_id schedule) true st)
    as [rest' Hs']; [by rewrite Hs|].
  fold st' in Hroster, Hs'.
  destruct (IH st' next ((i + 1) `mod` length (roster schedule (db st)))%nat
              rest') as [Hlen Hpicks].
  { by rewrite Hroster. }
  { by rewrite Hroster. }
  { done. }
  split; [simpl; by rewrite Hlen|].
  intros [|k] Hk; simpl.
  - by rewrite Nat.add_0_r, Hnext.
  - rewrite Hpicks by lia. rewrite Hroster. f_equal.
    rewrite <- Nat.add_assoc, Nat.Div0.add_mod_idemp_l. f_equal; lia.
Qed.

(** X6.  Round-robin cycling.  Take a schedule that has a row and whose
    roster is not empty and lists nobody twice.  Start with a stored cursor
    that names no roster member and a calendar without a qualifying event at
    the earliest start of the first epoch (which is not empty), and let
    [find_next_user_id] and [create_events] take turns over the epochs.
    Then every epoch gets a user, the [k]-th epoch the member at position
    [k mod N]: the first [N] epochs go to the roster members in priority
    order, each once, and then the order repeats.  (A roster that lists a
    user twice does not cycle like this: [list.index] finds the first
    occurrence, so after the user's second turn the rotation goes on from
    the first one.) *)
Theorem take_turns_cycles schedule epoch epochs st last_user rest start :
  NoDup (roster schedule (db st)) →
  roster schedule (db st) ≠ [] →
  select_last_scheduled_user_id schedule (db st) = last_user :: rest →
  ¬ in_roster last_user (roster schedule (db st)) →
  py_min (fe_start <$> epoch) = Ok start →
  (∀ e, e ∈ tbl_event (db st) →
        ¬ qualifies schedule start (roster schedule (db st)) e) →
  length (take_turns schedule (epoch :: epochs) st) = S (length epochs) ∧
  (∀ k, (k ≤ length epochs)%nat →
        take_turns schedule (epoch :: epochs) st !! k =
        roster schedule (db st) !! (k `mod` length (roster schedule (db st)))%nat) ∧
  ((length (roster schedule (db st)) ≤ S (length epochs))%nat →
   take (length (roster schedule (db st)))
     (take_turns schedule (epoch :: epochs) st) =
   roster schedule (db st)).
Proof.
  intros Hnd Hr Hs Hnin Hmin Hnone.
  destruct (find_next_user_id_first schedule epoch (db st) last_user rest start
              Hr Hs Hnin Hmin) as (first & Hfirst & Hrun).
  { by apply guess_last_scheduled_user_None. }
  set (st' := create_events (s_team_id schedule) (s_id schedule) first epoch
                (s_role_id schedule) true st).
  pose proof (create_events_roster schedule (s_team_id schedule)
                (s_id schedule) first epoch (s_role_id schedule) true st)
    as Hroster.
  destruct (create_events_select schedule (s_team_id schedule)
              (s_id schedule) first epoch (s_role_id schedule) true st)
    as [rest' Hs']; [by rewrite Hs|].
  fold st' in Hroster, Hs'.
  destruct (take_turns_from_cursor schedule epochs st' first 0 rest')
    as [Hlen Hpicks].
  { by rewrite Hroster. }
  { by rewrite Hroster. }
  { done. }
  assert (length (roster schedule (db st)) ≠ 0)%nat as HN
    by (by destruct (roster schedule (db st))).
  assert (∀ k, (k ≤ length epochs)%nat →
            take_turns schedule (epoch :: epochs) st !! k =
            roster schedule (db st)
              !! (k `mod` length (roster schedule (db st)))%nat) as Hall.
  { intros [|k] Hk; simpl; rewrite Hrun; fold st'; simpl.
    - by rewrite Nat.Div0.mod_0_l, Hfirst.
    - rewrite Hpicks by lia. by rewrite Hroster. }
  split_and!; [simpl; rewrite Hrun; fold st'; simpl; by rewrite Hlen | done |].
  intros HlenN. apply list_eq. intros k.
  destruct (decide (k < length (roster schedule (db st)))%nat) as [Hk|Hk].
  - rewrite lookup_take_lt by done. rewrite Hall by lia.
    by rewrite Nat.mod_small.
  - rewrite lookup_take_ge by lia. symmetry. apply lookup_ge_None. lia.
Qed.

Lemma take_turns_cycles_witness :
  take 2 (take_turns Sample.weekly
            [Sample.week 1000; Sample.week 605800; Sample.week 1210600]
            (Sample.connection (Sample.tables None None []))) =
  roster Sample.weekly (Sample.tables None None []).
Proof.
  apply (take_turns_cycles Sample.weekly (Sample.week 1000)
           [Sample.week 605800; Sample.week 1210600]
           (Sample.connection (Sample.tables None None [])) None
           [] 1000).
  - vm_compute.
    repeat (apply NoDup_cons_2; [rewrite ?elem_of_cons, ?elem_of_nil; lia|]).
    apply NoDup_nil_2.
  - by vm_compute.
  - by vm_compute.
  - by intros [].
  - by vm_compute.
  - intros e He. by apply elem_of_nil in He.
  - vm_compute. lia.
Defined.

End round_robin_more.

Section what_the_queries_read.
Import RoundRobin.
Context (f : event_row → event_row).
Context (Hf : ∀ e, calendar_key (f e) = calendar_key e).

Lemma calendar_key_columns e :
  ev_team_id (f e) = ev_team_id e ∧ ev_user_id (f e) = ev_user_id e ∧
  ev_start (f e) = ev_start e ∧ ev_role_id (f e) = ev_role_id e.
Proof.
  specialize (Hf e). unfold calendar_key in Hf.
  by injection Hf as -> -> -> ->.
Qed.

Lemma qualifies_calendar_key schedule start roster e :
  qualifies schedule start roster (f e) ↔ qualifies schedule start roster e.
Proof.
  unfold qualifies.
  by destruct (calendar_key_columns e) as (-> & -> & -> & ->).
Qed.

Lemma max_start_calendar_key evs : max_start (f <$> evs) = max_start evs.
Proof.
  unfold max_start. rewrite <- list_fmap_compose.
  assert (ev_start ∘ f <$> evs = ev_start <$> evs) as ->; [|done].
  apply list_fmap_ext. intros _ e _. simpl.
  by destruct (calendar_key_columns e) as (_ & _ & -> & _).
Qed.

Lemma group_by_user_calendar_key evs :
  group_by_user (f <$> evs) = group_by_user evs.
Proof.
  unfold group_by_user. rewrite <- list_fmap_compose.
  assert (ev_user_id ∘ f <$> evs = ev_user_id <$> evs) as ->.
  { apply list_fmap_ext. intros _ e _. simpl.
    by destruct (calendar_key_columns e) as (_ & -> & _ & _). }
  apply list_fmap_ext. intros _ u _. f_equal.
  rewrite filter_fmap_iff.
  - apply max_start_calendar_key.
  - intros e. by destruct (calendar_key_columns e) as (_ & -> & _ & _).
Qed.

Lemma find_next_user_id_calendar_key schedule future_events evs d :
  find_next_user_id schedule future_events (with_events (f <$> evs) d) =
  find_next_user_id schedule future_events (with_events evs d).
Proof.
  unfold find_next_user_id.
  change (roster schedule (with_events (f <$> evs) d))
    with (roster schedule (with_events evs d)).
  change (select_last_scheduled_user_id schedule (with_events (f <$> evs) d))
    with (select_last_scheduled_user_id schedule (with_events evs d)).
  destruct (select_last_scheduled_user_id schedule (with_events evs d))
    as [|last_user ?]; [done|].
  destruct (roster schedule (with_events evs d)) as [|u0 r]; [done|].
  destruct (decide (in_roster last_user (u0 :: r))); [done|].
  destruct (py_min (fe_start <$> future_events)); [|done]. simpl.
  unfold guess_last_scheduled_user. simpl.
  rewrite filter_fmap_iff by apply qualifies_calendar_key.
  by rewrite group_by_user_calendar_key.
Qed.

End what_the_queries_read.

Section noninterference.
Import RoundRobin.

Lemma event_of_key_calendar_key e :
  calendar_key (event_of_key (calendar_key e)) = calendar_key e.
Proof. done. Qed.

(** X7.  [find_next_user_id] reads of the events only team, user, start and role:
    two event tables whose rows agree on these four columns, row by row,
    give the same answer, whatever the rows' keys, ends, schedule
    attributions and link ids are. *)
Theorem find_next_user_id_reads_four_columns schedule future_events d evs1 evs2 :
  calendar_key <$> evs1 = calendar_key <$> evs2 →
  find_next_user_id schedule future_events (with_events evs1 d) =
  find_next_user_id schedule future_events (with_events evs2 d).
Proof.
  intros Hkeys.
  rewrite <- (find_next_user_id_calendar_key (event_of_key ∘ calendar_key)
                event_of_key_calendar_key schedule future_events evs1 d).
  rewrite <- (find_next_user_id_calendar_key (event_of_key ∘ calendar_key)
                event_of_key_calendar_key schedule future_events evs2 d).
  by rewrite !list_fmap_compose, Hkeys.
Qed.

Lemma find_next_user_id_reads_four_columns_witness :
  find_next_user_id Sample.weekly (Sample.week 1000)
    (with_events [Sample.manual_event 101 5 6] (Sample.tables None None [])) =
  find_next_user_id Sample.weekly (Sample.week 1000)
    (with_events [event_of 77 10 3 101 20 (Some 4%nat)
                    {| fe_start := 5; fe_end := 900 |}]
       (Sample.tables None None [])).
Proof.
  by apply (find_next_user_id_reads_four_columns Sample.weekly
              (Sample.week 1000) (Sample.tables None None [])).
Defined.

(** X8.  [find_next_user_id] takes no notice of events of other teams, of other
    roles, of users outside the roster, or that start after the earliest
    start of [future_events]: removing any such events from the table does
    not change its answer. *)
Theorem find_next_user_id_ignores_other_events
    schedule future_events d evs (keep : event_row → Prop)
    `{!∀ e, Decision (keep e)} :
  (∀ e start,
      on_calendar schedule (roster schedule d) e →
      py_min (fe_start <$> future_events) = Ok start →
      ev_start e ≤ start →
      keep e) →
  find_next_user_id schedule future_events (with_events (filter keep evs) d) =
  find_next_user_id schedule future_events (with_events evs d).
Proof.
  intros Hkeep. unfold find_next_user_id.
  change (roster schedule (with_events (filter keep evs) d))
    with (roster schedule d).
  change (roster schedule (with_events evs d)) with (roster schedule d).
  change (select_last_scheduled_user_id schedule (with_events (filter keep evs) d))
    with (select_last_scheduled_user_id schedule (with_events evs d)).
  destruct (select_last_scheduled_user_id schedule (with_events evs d))
    as [|last_user ?]; [done|].
  destruct (roster schedule d) as [|u0 r] eqn:Hr; [done|].
  destruct (decide (in_roster last_user (u0 :: r))); [done|].
  destruct (py_min (fe_start <$> future_events)) as [start|] eqn:Hmin; [|done].
  simpl. unfold guess_last_scheduled_user. simpl.
  rewrite list_filter_filter_l; [done|].
  intros e (Hteam & Huser & Hstart & Hrole). by eapply Hkeep.
Qed.

Lemma find_next_user_id_ignores_other_events_witness :
  find_next_user_id Sample.weekly (Sample.week 1000)
    (with_events
       (filter (λ e, ev_start e ≤ 1000)
          [Sample.manual_event 101 5 6; Sample.manual_event 102 2000 3000])
       (Sample.tables None None [])) =
  find_next_user_id Sample.weekly (Sample.week 1000)
    (with_events
       [Sample.manual_event 101 5 6; Sample.manual_event 102 2000 3000]
       (Sample.tables None None [])).
Proof.
  apply (find_next_user_id_ignores_other_events Sample.weekly
           (Sample.week 1000) (Sample.tables None None [])
           [Sample.manual_event 101 5 6; Sample.manual_event 102 2000 3000]
           (λ e, ev_start e ≤ 1000)).
  intros e start _ Hmin Hle. vm_compute in Hmin. injection Hmin as <-. done.
Defined.

(** X9.  [find_next_user_id] returns [None] exactly when the schedule has no row
    or the roster is empty; in every other case it returns a user or raises. *)
Theorem find_next_user_id_None_iff schedule future_events d :
  find_next_user_id schedule future_events d = Ok None ↔
  select_last_scheduled_user_id schedule d = [] ∨ roster schedule d = [].
Proof.
  split.
  - intros Hrun.
    destruct (select_last_scheduled_user_id schedule d) as [|last_user rest] eqn:Hs;
      [by left|].
    destruct (decide (roster schedule d = [])) as [Hr|Hr]; [by right|].
    exfalso.
    rewrite (find_next_user_id_unfold _ _ _ last_user rest) in Hrun by done.
    destruct (decide (in_roster last_user (roster schedule d))).
    + by destruct (next_after (roster schedule d) last_user).
    + destruct (py_min (fe_start <$> future_events)) as [start|]; [|done].
      simpl in Hrun.
      destruct (guess_last_scheduled_user schedule start (roster schedule d) d)
        as [w|].
      * by destruct (next_after (roster schedule d) (Some w)).
      * by destruct (py_getitem (roster schedule d) 0).
  - intros [Hs|Hr].
    + by apply find_next_user_id_no_schedule.
    + by apply find_next_user_id_empty_roster.
Qed.

End noninterference.

(** * The batching helpers of the on-call endpoints *)

Section chunks.
Context {A : Type}.
Implicit Types (xs : list A) (size : Z).

Lemma py_range_len_step stop size :
  0 < size → 0 < stop →
  Z.to_nat (py_range_len stop size) =
  S (Z.to_nat (py_range_len (Z.max 0 (stop - size)) size)).
Proof.
  intros Hsize Hstop. unfold py_range_len.
  rewrite !decide_True by lia.
  destruct (decide (stop ≤ size)) as [Hle|Hgt].
  - rewrite Z.max_l by lia. rewrite decide_False by lia.
    rewrite Z.div_small by lia. reflexivity.
  - rewrite Z.max_r by lia. rewrite decide_True by lia.
    replace (stop - size - 1) with (stop - 1 + (-1) * size) by lia.
    rewrite Z.div_add by lia.
    assert (1 ≤ (stop - 1) `div` size).
    { apply Z.div_le_lower_bound; lia. }
    lia.
Qed.

Lemma py_slice_tail xs size k :
  0 < size →
  py_slice xs (Z.of_nat (S k) * size) (Z.of_nat (S k) * size + size) =
  py_slice (drop (Z.to_nat size) xs) (Z.of_nat k * size)
    (Z.of_nat k * size + size).
Proof.
  intros Hsize. unfold py_slice. rewrite drop_drop. f_equal; [f_equal; lia|].
  f_equal. lia.
Qed.

(** One step of [_chunks]: the first chunk, then the chunks of the rest. *)
Lemma chunks_unfold xs size :
  0 < size →
  ServiceOncall._chunks xs size =
  match xs with
  | [] => Ok []
  | _ => (λ cs, take (Z.to_nat size) xs :: cs)
           <$> ServiceOncall._chunks (drop (Z.to_nat size) xs) size
  end.
Proof.
  intros Hsize. unfold ServiceOncall._chunks, py_range.
  destruct (decide (size = 0)) as [|_]; [lia|].
  destruct xs as [|x xs'].
  { simpl. unfold py_range_len. rewrite decide_True by lia.
    by rewrite decide_False by lia. }
  set (xs := x :: xs').
  rewrite py_range_len_step by (simpl; lia).
  replace (Z.max 0 (Z.of_nat (length xs) - size))
    with (Z.of_nat (length (drop (Z.to_nat size) xs)))
    by (rewrite length_drop; lia).
  simpl fmap at 1. cbn [fmap result_fmap]. f_equal.
  rewrite <- fmap_S_seq, <- !list_fmap_compose. simpl. f_equal.
  - unfold py_slice. simpl. f_equal. lia.
  - apply list_fmap_ext. intros _ k _. simpl.
    pose proof (py_slice_tail xs size k Hsize) as Htail.
    replace (Z.of_nat (S k)) with (Z.pos (Pos.of_succ_nat k)) in Htail by lia.
    exact Htail.
Qed.

End chunks.

Section chunks_correct.
Context {A : Type}.
Implicit Types (xs : list A) (size : Z).

Lemma chunks_partition_bounded (n : nat) xs size :
  0 < size → (length xs ≤ n)%nat →
  ∃ cs, ServiceOncall._chunks xs size = Ok cs ∧
        concat cs = xs ∧
        Forall (λ c, c ≠ [] ∧ Z.of_nat (length c) ≤ size) cs ∧
        ∀ i c, cs !! i = Some c → (S i < length cs)%nat →
               Z.of_nat (length c) = size.
Proof.
  intros Hsize. revert xs. induction n as [|n IH]; intros xs Hn;
    rewrite chunks_unfold by done.
  - destruct xs; [|simpl in Hn; lia].
    exists []. split_and!; [done..|]. by intros i c.
  - destruct xs as [|x xs'].
    { exists []. split_and!; [done..|]. by intros i c. }
    set (xs := x :: xs') in *.
    destruct (IH (drop (Z.to_nat size) xs)) as (cs & -> & Hcat & Hall & Hfull).
    { rewrite length_drop. simpl in *. lia. }
    exists (take (Z.to_nat size) xs :: cs). split_and!.
    + done.
    + simpl. by rewrite Hcat, take_drop.
    + constructor; [|done]. split.
      * unfold xs. destruct (Z.to_nat size) eqn:Hs; [lia|done].
      * rewrite length_take. lia.
    + intros [|i] c; simpl.
      * intros [= <-] Hlen.
        assert (drop (Z.to_nat size) xs ≠ []) as Hrest.
        { rewrite <- Hcat. destruct cs as [|c cs']; [simpl in Hlen; lia|].
          apply Forall_cons in Hall as [[Hc _] _]. simpl.
          by destruct c. }
        assert (Z.to_nat size < length xs)%nat.
        { destruct (decide (Z.to_nat size < length xs)%nat); [done|].
          by rewrite drop_ge in Hrest by lia. }
        rewrite length_take. lia.
      * intros Hc Hlen. apply (Hfull i c Hc). lia.
Qed.

(** X10.  [_chunks] with a positive size cuts the sequence into consecutive pieces:
    the chunks put together give the sequence back, no chunk is empty, none
    is longer than [size], and every chunk but the last has exactly [size]
    elements. *)
Theorem chunks_partition xs size :
  0 < size →
  ∃ cs, ServiceOncall._chunks xs size = Ok cs ∧
        concat cs = xs ∧
        Forall (λ c, c ≠ [] ∧ Z.of_nat (length c) ≤ size) cs ∧
        ∀ i c, cs !! i = Some c → (S i < length cs)%nat →
               Z.of_nat (length c) = size.
Proof. intros Hsize. by apply (chunks_partition_bounded (length xs)). Qed.

Lemma fill_spec (n : nat) (it buf : list A) :
  TeamOncall.fill n it buf =
  (buf ++ take n it, drop n it, bool_decide (length it < n)%nat).
Proof.
  revert it buf. induction n as [|n IH]; intros it buf.
  - cbn [TeamOncall.fill]. rewrite take_0, app_nil_r, drop_0.
    f_equal; symmetry; apply bool_decide_eq_false_2; lia.
  - destruct it as [|x it]; cbn [TeamOncall.fill].
    + rewrite take_nil, app_nil_r, drop_nil.
      f_equal; symmetry; apply bool_decide_eq_true_2; simpl; lia.
    + rewrite IH. cbn [take drop length]. rewrite <- app_assoc.
      f_equal; apply bool_decide_ext; lia.
Qed.

(** X11.  With a positive size, [_chunk] of team_oncall.py returns after at most
    [len(seq) + 1] rounds of its loop and yields exactly the chunks that
    [_chunks] of service_oncall.py yields. *)
Theorem chunk_agrees_with_chunks xs size fuel :
  0 < size → (length xs < fuel)%nat →
  ∃ cs, TeamOncall._chunk fuel xs size = Some cs ∧
        ServiceOncall._chunks xs size = Ok cs.
Proof.
  intros Hsize. revert xs.
  induction fuel as [|fuel IH]; intros xs Hfuel; [lia|].
  rewrite chunks_unfold by done.
  cbn [TeamOncall._chunk]. rewrite fill_spec, app_nil_l.
  destruct (decide (length xs < Z.to_nat size)%nat) as [Hshort|Hlong].
  - rewrite bool_decide_eq_true_2 by done.
    rewrite take_ge by lia.
    destruct xs as [|x xs']; [by exists []|].
    exists [x :: xs']. split; [done|].
    rewrite drop_ge by lia. by rewrite chunks_unfold by done.
  - rewrite bool_decide_eq_false_2 by done.
    destruct (IH (drop (Z.to_nat size) xs)) as (cs & -> & ->).
    { rewrite length_drop. lia. }
    destruct xs as [|x xs']; [simpl in Hlong; lia|].
    by eexists.
Qed.

(** X12.  For a size that is not positive the two helpers part ways:
    [_chunks] raises [ValueError] for 0 and yields nothing for a negative
    size, whatever the sequence holds, while [_chunk] never returns (each
    round of its loop yields an empty chunk and consumes nothing). *)
Theorem chunks_nonpositive_size xs size :
  size ≤ 0 →
  ServiceOncall._chunks xs size =
    (if decide (size = 0) then Raise ValueError else Ok []) ∧
  ∀ fuel, TeamOncall._chunk fuel xs size = None.
Proof.
  intros Hsize. split.
  - unfold ServiceOncall._chunks, py_range, py_range_len.
    destruct (decide (size = 0)); [done|].
    rewrite decide_False by lia. by rewrite decide_False by lia.
  - intros fuel. induction fuel as [|fuel IH]; [done|].
    cbn [TeamOncall._chunk]. rewrite fill_spec.
    replace (Z.to_nat size) with 0%nat by lia.
    rewrite bool_decide_eq_false_2 by lia. rewrite drop_0.
    replace (Z.to_nat size) with 0%nat in IH by lia.
    by rewrite IH.
Qed.

End chunks_correct.

Section chunks_examples.

Lemma chunks_partition_witness :
  ∃ cs, ServiceOncall._chunks [1; 2; 3; 4; 5] 2 = Ok cs ∧
        concat cs = [1; 2; 3; 4; 5].
Proof.
  destruct (chunks_partition [1; 2; 3; 4; 5] 2) as (cs & Hcs & Hcat & _);
    [lia|].
  by exists cs.
Defined.

Lemma chunk_agrees_with_chunks_witness :
  ∃ cs, TeamOncall._chunk 6 [1; 2; 3; 4; 5] 2 = Some cs ∧
        ServiceOncall._chunks [1; 2; 3; 4; 5] 2 = Ok cs.
Proof.
  apply (chunk_agrees_with_chunks [1; 2; 3; 4; 5] 2 6); [lia | simpl; lia].
Defined.

Lemma chunks_nonpositive_size_witness :
  ServiceOncall._chunks [1; 2; 3] (-1) = Ok [] ∧
  ∀ fuel, TeamOncall._chunk fuel [1; 2; 3] (-1) = None.
Proof.
  by apply (chunks_nonpositive_size [1; 2; 3] (-1)).
Defined.

End chunks_examples.

(** * The answers of the on-call endpoints *)

Section first_per_user_facts.

Lemma elem_of_first_per_user evs e :
  e ∈ first_per_user evs ↔ ∃ i, first_of_user evs i e.
Proof.
  revert e. induction evs as [|e0 evs IH]; intros e; simpl.
  - split; [by intros ?%elem_of_nil | by intros (i & ? & _)].
  - rewrite elem_of_cons, list_elem_of_filter, IH. split.
    + intros [->|(Hne & i & Hi & Hfirst)].
      * exists 0%nat. split; [done|]. intros j e' Hj. lia.
      * exists (S i). split; [done|]. intros [|j] e' Hj; simpl.
        -- by intros [= <-].
        -- apply Hfirst. lia.
    + intros ([|i] & Hi & Hfirst); simpl in Hi.
      * left. by injection Hi as ->.
      * right. split.
        -- intros Heq. by apply (Hfirst 0%nat e0); [lia | done |].
        -- exists i. split; [done|]. intros j e' Hj He'.
           apply (Hfirst (S j) e'); [lia | done].
Qed.

Lemma first_per_user_users evs u :
  u ∈ ev_user_id <$> first_per_user evs ↔ u ∈ ev_user_id <$> evs.
Proof.
  revert u. induction evs as [|e0 evs IH]; intros u; [done|]. simpl.
  rewrite !elem_of_cons, <- IH, !list_elem_of_fmap.
  setoid_rewrite list_elem_of_filter. split.
  - intros [->|(e & -> & _ & He)]; [by left | right; by exists e].
  - intros [->|(e & -> & He)]; [by left|].
    destruct (decide (ev_user_id e = ev_user_id e0)) as [Heq|Hne];
      [by left | right; by exists e].
Qed.

Lemma first_per_user_NoDup evs : NoDup (ev_user_id <$> first_per_user evs).
Proof.
  induction evs as [|e0 evs IH]; simpl; [constructor|].
  constructor.
  - intros (e & He & [Hne _]%list_elem_of_filter)%list_elem_of_fmap. done.
  - clear -IH. induction (first_per_user evs) as [|e l IHl]; [constructor|].
    rewrite fmap_cons in IH. apply NoDup_cons in IH as [Hnin Hnd].
    rewrite filter_cons. case_decide; [|by apply IHl].
    rewrite fmap_cons. constructor; [|by apply IHl].
    intros (e' & He' & [_ Hin]%list_elem_of_filter)%list_elem_of_fmap.
    apply Hnin. apply list_elem_of_fmap. by exists e'.
Qed.

Lemma first_per_user_snoc evs e :
  first_per_user (evs ++ [e]) =
  first_per_user evs ++
  (if decide (ev_user_id e ∈ ev_user_id <$> evs) then [] else [e]).
Proof.
  induction evs as [|e0 evs IH].
  - done.
  - cbn [app first_per_user]. rewrite IH, filter_app, fmap_cons.
    rewrite app_comm_cons. f_equal.
    destruct (decide (ev_user_id e ∈ ev_user_id <$> evs)) as [Hin|Hnin].
    + rewrite decide_True by (by right). done.
    + rewrite filter_cons, filter_nil.
      destruct (decide (ev_user_id e = ev_user_id e0)) as [Heq|Hne].
      * rewrite decide_False by (by intros ?).
        rewrite decide_True by (rewrite Heq; left). done.
      * rewrite decide_True by done.
        rewrite decide_False; [done|].
        intros [?|?]%elem_of_cons; done.
Qed.

End first_per_user_facts.

Section service_on_get.
Context (users : gmap Z (option string * option string)).
Context (contacts_by_user : gmap Z (gmap string string)).
Context (team_name role_name : gmap Z (option string)).

Local Abbreviation item_for :=
  (ServiceOncall.item_for users contacts_by_user team_name role_name).
Local Abbreviation assemble_step :=
  (ServiceOncall.assemble_step users contacts_by_user team_name role_name).

(** After the loop of step 5, [seen] holds the users of all events and [out]
    the items of the first event of each user. *)
Lemma service_assemble_loop evs :
  foldl assemble_step (∅, []) evs =
  (list_to_set (ev_user_id <$> evs), omap item_for (first_per_user evs)).
Proof.
  induction evs as [|e evs IH] using rev_ind; [done|].
  rewrite foldl_snoc, IH, first_per_user_snoc, omap_app, fmap_snoc.
  rewrite list_to_set_app_L. cbn [list_to_set].
  rewrite union_empty_r_L, (comm_L (∪)).
  unfold ServiceOncall.assemble_step.
  destruct (decide (ev_user_id e ∈ ev_user_id <$> evs)) as [Hin|Hnin].
  - assert (ev_user_id e ∈ (list_to_set (ev_user_id <$> evs) : gset Z))
      as Hseen by (by apply elem_of_list_to_set).
    rewrite decide_True by done.
    rewrite subseteq_union_1_L by (by apply singleton_subseteq_l).
    by rewrite app_nil_r.
  - assert (ev_user_id e ∉ (list_to_set (ev_user_id <$> evs) : gset Z))
      as Hseen by (by rewrite elem_of_list_to_set).
    rewrite decide_False by done.
    simpl. destruct (item_for e); [done|]. by rewrite app_nil_r.
Qed.

(** X14.  Step 5 of [on_get] in service_oncall.py, "first event per user wins":
    the answer holds one item per user that has a name, in the order in
    which the users first occur in [evs], and each item carries the window,
    team and role of that user's first event; later events of the same user
    leave no trace. *)
Theorem service_assemble_first_event_wins evs :
  ServiceOncall.assemble users contacts_by_user team_name role_name evs =
    omap item_for (first_per_user evs) ∧
  NoDup (ev_user_id <$> first_per_user evs) ∧
  (∀ e, e ∈ first_per_user evs ↔ ∃ i, first_of_user evs i e) ∧
  (∀ it,
     it ∈ ServiceOncall.assemble users contacts_by_user team_name role_name evs ↔
     ∃ i e uname full,
       first_of_user evs i e ∧
       users !! ev_user_id e = Some (Some uname, full) ∧
       it = ServiceOncall.item_of contacts_by_user team_name role_name e
              (Some uname) full).
Proof.
  assert (ServiceOncall.assemble users contacts_by_user team_name role_name evs
          = omap item_for (first_per_user evs)) as Hout.
  { unfold ServiceOncall.assemble. by rewrite service_assemble_loop. }
  split_and!; [done | apply first_per_user_NoDup
              | apply elem_of_first_per_user |].
  intros it. rewrite Hout, list_elem_of_omap.
  setoid_rewrite elem_of_first_per_user. unfold ServiceOncall.item_for. split.
  - intros (e & (i & Hi) & Hit).
    destruct (users !! ev_user_id e) as [[[uname|] full]|] eqn:Hu;
      simpl in Hit; [|done..].
    injection Hit as <-. by exists i, e, uname, full.
  - intros (i & e & uname & full & Hi & Hu & ->).
    exists e. split; [by exists i|]. by rewrite Hu.
Qed.

End service_on_get.

Section team_on_get.
Import ServiceOncall (item, it_contacts, it_end, it_start, it_user,
  it_full_name, it_team, it_role).
Context (users : gmap Z (option string * option string)).
Context (contacts_by_user : gmap Z (gmap string string)).
Context (team_name_by_id role_name_by_id : gmap Z (option string)).

Local Abbreviation new_item :=
  (TeamOncall.new_item contacts_by_user team_name_by_id role_name_by_id).
Local Abbreviation assemble_step :=
  (TeamOncall.assemble_step users contacts_by_user team_name_by_id
     role_name_by_id).
Local Abbreviation known := (λ e : event_row, is_Some (users !! ev_user_id e)).
Local Abbreviation entry_ok :=
  (λ events e0 (kv : Z * item),
     kv.1 = ev_user_id e0 ∧
     answers_for users contacts_by_user team_name_by_id role_name_by_id
       events e0 kv.2).

Lemma by_user_get_None uid (by_user : list (Z * item)) :
  TeamOncall.by_user_get uid by_user = None ↔ uid ∉ by_user.*1.
Proof.
  induction by_user as [|[k v] by_user IH]; simpl.
  - split; [by intros _ ?%elem_of_nil | done].
  - rewrite not_elem_of_cons. case_decide as Hk.
    + split; [done | intros [Hne _]; by subst].
    + rewrite IH. split; [by split; [congruence|] | by intros [_ ?]].
Qed.

Lemma spans_snoc_other events x uid it :
  ev_user_id x ≠ uid → spans events uid it → spans (events ++ [x]) uid it.
Proof.
  intros Hne ((e1 & He1 & Hu1 & Hs) & Hmin & (e2 & He2 & Hu2 & He) & Hmax).
  split_and!.
  - exists e1. split_and!; [apply elem_of_app; by left | done..].
  - intros e [Hin|Hin%list_elem_of_singleton]%elem_of_app Hu;
      [by apply Hmin | by subst].
  - exists e2. split_and!; [apply elem_of_app; by left | done..].
  - intros e [Hin|Hin%list_elem_of_singleton]%elem_of_app Hu;
      [by apply Hmax | by subst].
Qed.

Lemma spans_snoc_same events x it :
  spans events (ev_user_id x) it →
  spans (events ++ [x]) (ev_user_id x) (TeamOncall.widen x it).
Proof.
  intros ((e1 & He1 & Hu1 & Hs) & Hmin & (e2 & He2 & Hu2 & He) & Hmax).
  unfold spans, TeamOncall.widen. simpl. split_and!.
  - case_decide.
    + exists x. split_and!; [apply elem_of_app; right; left | done..].
    + exists e1. split_and!; [apply elem_of_app; by left | done..].
  - intros e [Hin|Hin%list_elem_of_singleton]%elem_of_app Hu.
    + specialize (Hmin e Hin Hu). case_decide; lia.
    + subst. case_decide; lia.
  - case_decide.
    + exists x. split_and!; [apply elem_of_app; right; left | done..].
    + exists e2. split_and!; [apply elem_of_app; by left | done..].
  - intros e [Hin|Hin%list_elem_of_singleton]%elem_of_app Hu.
    + specialize (Hmax e Hin Hu). case_decide; lia.
    + subst. case_decide; lia.
Qed.

Lemma spans_singleton events x u :
  (∀ e, e ∈ events → ev_user_id e ≠ ev_user_id x) →
  spans (events ++ [x]) (ev_user_id x) (new_item x u).
Proof.
  intros Hnew. unfold spans. simpl. split_and!.
  - exists x. split_and!; [apply elem_of_app; right; left | done..].
  - intros e [Hin|Hin%list_elem_of_singleton]%elem_of_app Hu;
      [by apply Hnew in Hin | by subst].
  - exists x. split_and!; [apply elem_of_app; right; left | done..].
  - intros e [Hin|Hin%list_elem_of_singleton]%elem_of_app Hu;
      [by apply Hnew in Hin | by subst].
Qed.

Lemma entry_ok_snoc_other events x e0 kv :
  ev_user_id x ≠ ev_user_id e0 →
  entry_ok events e0 kv → entry_ok (events ++ [x]) e0 kv.
Proof.
  intros Hne (Hk & Hu & Hspan). split; [done|]. split; [done|].
  by apply spans_snoc_other.
Qed.

Lemma entry_ok_update events x F by_user :
  NoDup (ev_user_id <$> F) →
  Forall2 (entry_ok events) F by_user →
  Forall2 (entry_ok (events ++ [x])) F
    (TeamOncall.by_user_update (ev_user_id x) (TeamOncall.widen x) by_user).
Proof.
  intros Hnd Hall. induction Hall as [|e0 [k v] F by_user Hhd Htl IH]; simpl;
    [constructor|].
  rewrite fmap_cons in Hnd. apply NoDup_cons in Hnd as [Hnin Hnd].
  destruct Hhd as (Hk & (u & Hu & Hsame) & Hspan). simpl in Hk. subst k.
  case_decide as Heq.
  - constructor.
    + split; [done|]. split.
      * exists u. split; [done|]. destruct Hsame as (? & ? & ? & ? & ?).
        by repeat split.
      * simpl. rewrite Heq. apply spans_snoc_same. by rewrite <- Heq.
    + clear IH.
      apply Forall2_same_length_lookup_2; [by eapply Forall2_length|].
      intros i e1 kv1 He1 Hkv1.
      pose proof (Forall2_lookup_lr _ _ _ _ _ _ Htl He1 Hkv1) as Hok.
      apply entry_ok_snoc_other; [|done].
      rewrite <- Heq. intros Heq'. apply Hnin.
      apply list_elem_of_fmap. exists e1. split; [done|].
      by eapply list_elem_of_lookup_2.
  - constructor; [|by apply IH].
    apply entry_ok_snoc_other; [congruence|].
    split; [done|]. split; [by exists u | done].
Qed.

Lemma NoDup_fmap_filter {B} (g : event_row → B) (P : event_row → Prop)
    `{!∀ e, Decision (P e)} (l : list event_row) :
  NoDup (g <$> l) → NoDup (g <$> filter P l).
Proof.
  induction l as [|e l IH]; [done|].
  rewrite fmap_cons. intros [Hnin Hnd]%NoDup_cons.
  rewrite filter_cons. case_decide; [|by apply IH].
  rewrite fmap_cons. constructor; [|by apply IH].
  intros (e' & He' & [_ Hin]%list_elem_of_filter)%list_elem_of_fmap.
  apply Hnin. apply list_elem_of_fmap. by exists e'.
Qed.

Lemma entry_ok_keys events F (by_user : list (Z * item)) :
  Forall2 (entry_ok events) F by_user → by_user.*1 = ev_user_id <$> F.
Proof.
  induction 1 as [|e0 kv F by_user [Hk _] _ IH]; [done|].
  by rewrite !fmap_cons, Hk, IH.
Qed.

(** The loop of step 5 keeps one entry per user it knows, in the order of
    the users' first events, each with the widest window so far. *)
Lemma team_assemble_loop events :
  Forall2 (entry_ok events) (filter known (first_per_user events))
    (foldl assemble_step [] events).
Proof.
  induction events as [|x events IH] using rev_ind; [constructor|].
  rewrite foldl_snoc, first_per_user_snoc, filter_app.
  set (by_user := foldl assemble_step [] events) in *.
  set (F := filter known (first_per_user events)) in *.
  pose proof (entry_ok_keys _ _ _ IH) as Hkeys.
  assert (∀ e0, e0 ∈ F →
            is_Some (users !! ev_user_id e0) ∧
            ev_user_id e0 ∈ ev_user_id <$> events) as HF.
  { intros e0 [Hknown He0]%list_elem_of_filter. split; [done|].
    apply first_per_user_users. apply list_elem_of_fmap. by exists e0. }
  assert (∀ P : event_row → Z * item → Prop,
            (∀ e0 kv, e0 ∈ F → entry_ok events e0 kv → P e0 kv) →
            Forall2 P F by_user) as Hweaken.
  { intros P HP.
    apply Forall2_same_length_lookup_2; [by eapply Forall2_length|].
    intros i e0 kv He0 Hkv. apply HP; [by eapply list_elem_of_lookup_2|].
    exact (Forall2_lookup_lr _ _ _ _ _ _ IH He0 Hkv). }
  unfold TeamOncall.assemble_step.
  destruct (users !! ev_user_id x) as [u|] eqn:Hu.
  - destruct (decide (ev_user_id x ∈ ev_user_id <$> events)) as [Hin|Hnin].
    + rewrite filter_nil, app_nil_r.
      destruct (TeamOncall.by_user_get (ev_user_id x) by_user) as [it|] eqn:Hget.
      * apply entry_ok_update; [|done].
        apply NoDup_fmap_filter, first_per_user_NoDup.
      * exfalso. apply by_user_get_None in Hget. apply Hget.
        rewrite Hkeys.
        apply first_per_user_users, list_elem_of_fmap in Hin
          as (e & Heq & He).
        apply list_elem_of_fmap. exists e. split; [done|].
        apply list_elem_of_filter. split; [|done].
        rewrite <- Heq, Hu. by eexists.
    + rewrite filter_cons, filter_nil.
      rewrite decide_True by (rewrite Hu; by eexists).
      assert (TeamOncall.by_user_get (ev_user_id x) by_user = None) as ->.
      { apply by_user_get_None. rewrite Hkeys.
        intros (e0 & Heq & He0)%list_elem_of_fmap.
        apply Hnin. rewrite Heq. by apply HF. }
      apply Forall2_app.
      * apply Hweaken. intros e0 kv He0 Hok.
        apply entry_ok_snoc_other; [|done].
        intros Heq. apply Hnin. rewrite Heq. by apply HF.
      * constructor; [|constructor]. split; [done|]. split.
        -- exists u. by repeat split.
        -- apply spans_singleton. intros e He Heq. apply Hnin.
           rewrite <- Heq. apply list_elem_of_fmap. by exists e.
  - assert (filter known
              (if decide (ev_user_id x ∈ ev_user_id <$> events)
               then [] else [x]) = []) as ->.
    { case_decide; [done|]. rewrite filter_cons, filter_nil.
      rewrite decide_False; [done|]. rewrite Hu. by intros [? ?]. }
    rewrite app_nil_r. apply Hweaken. intros e0 kv He0 Hok.
    apply entry_ok_snoc_other; [|done].
    intros Heq. destruct (HF e0 He0) as [[u' Hu'] _]. congruence.
Qed.

(** X15.  Step 5 of [on_get] in team_oncall.py: the answer holds one item per user
    found in [users] that has an event, in the order of the users' first
    events; the item carries the names, team, role and contacts fetched for
    that first event, and its window is the widest over all events of the
    user: from the earliest start to the latest end. *)
Theorem team_assemble_widest_window events :
  Forall2
    (answers_for users contacts_by_user team_name_by_id role_name_by_id events)
    (filter known (first_per_user events))
    (TeamOncall.assemble users contacts_by_user team_name_by_id
       role_name_by_id events) ∧
  NoDup (ev_user_id <$> filter known (first_per_user events)) ∧
  (∀ e, e ∈ first_per_user events ↔ ∃ i, first_of_user events i e).
Proof.
  split_and!.
  - unfold TeamOncall.assemble. apply Forall2_fmap_r.
    eapply Forall2_impl; [apply team_assemble_loop|]. by intros e0 kv [_ ?].
  - apply NoDup_fmap_filter, first_per_user_NoDup.
  - apply elem_of_first_per_user.
Qed.

End team_on_get.

Section active_now.
Import ServiceOncall (item, it_end, it_start).
Context (users : gmap Z (option string * option string)).
Context (contacts_by_user : gmap Z (gmap string string)).
Context (team_name role_name : gmap Z (option string)).

(** X16.  When every event handed to step 5 is active at [now], as the queries of
    both endpoints select them, every item either endpoint answers with has a
    window that contains [now]: in service_oncall.py it is the window of one
    event, in team_oncall.py the widened window over the user's events. *)
Theorem on_get_windows_contain_now now events :
  (∀ e, e ∈ events → ev_start e ≤ now ≤ ev_end e) →
  (∀ it,
     it ∈ ServiceOncall.assemble users contacts_by_user team_name role_name
            events →
     it_start it ≤ now ≤ it_end it) ∧
  (∀ it,
     it ∈ TeamOncall.assemble users contacts_by_user team_name role_name
            events →
     it_start it ≤ now ≤ it_end it).
Proof.
  intros Hactive. split; intros it Hit.
  - unfold ServiceOncall.assemble in Hit.
    rewrite service_assemble_loop in Hit. simpl in Hit.
    apply list_elem_of_omap in Hit as (e & He & Hitem).
    apply elem_of_first_per_user in He as (i & Hi & _).
    apply list_elem_of_lookup_2 in Hi. specialize (Hactive e Hi).
    unfold ServiceOncall.item_for in Hitem.
    destruct (default (None, None) (users !! ev_user_id e)) as [[uname|] full];
      [|done].
    by injection Hitem as <-.
  - unfold TeamOncall.assemble in Hit.
    apply list_elem_of_fmap in Hit as ([k it'] & -> & Hkv).
    apply list_elem_of_lookup in Hkv as [i Hi].
    pose proof (team_assemble_loop users contacts_by_user team_name role_name
                  events) as Hall.
    destruct (Forall2_lookup_r _ _ _ _ _ Hall Hi) as (e0 & _ & _ & _ & Hspan).
    simpl in *.
    destruct Hspan as ((e1 & He1 & _ & <-) & _ & (e2 & He2 & _ & <-) & _).
    pose proof (Hactive e1 He1). pose proof (Hactive e2 He2). lia.
Qed.

End active_now.

Section active_now_examples.
Import ServiceOncall (it_end, it_start).

Lemma on_get_windows_contain_now_witness :
  Forall (λ e, ev_start e ≤ 1500 ≤ ev_end e) two_shifts ∧
  Forall (λ it, it_start it ≤ 1500 ≤ it_end it)
    (ServiceOncall.assemble one_user ∅ ∅ ∅ two_shifts) ∧
  Forall (λ it, it_start it ≤ 1500 ≤ it_end it)
    (TeamOncall.assemble one_user ∅ ∅ ∅ two_shifts).
Proof.
  assert (Hactive : Forall (λ e, ev_start e ≤ 1500 ≤ ev_end e) two_shifts).
  { unfold two_shifts. repeat (constructor; [simpl; lia|]). constructor. }
  split; [exact Hactive|].
  rewrite !Forall_forall.
  apply (on_get_windows_contain_now one_user ∅ ∅ ∅ 1500 two_shifts).
  by apply Forall_forall.
Defined.

End active_now_examples.

(** * Placeholders *)

Section placeholder_lists.

Lemma placeholders_cons (q : string) :
  placeholders ("%s" +:+ ", " +:+ q) = S (placeholders q).
Proof. done. Qed.

Lemma placeholders_replicate (n : nat) :
  placeholders (String.concat ", " (replicate (S n) "%s")) = S n.
Proof.
  induction n as [|n IH]; [done|].
  change (String.concat ", " (replicate (S (S n)) "%s"))
    with ("%s" +:+ ", " +:+ String.concat ", " (replicate (S n) "%s")).
  by rewrite placeholders_cons, IH.
Qed.

(** X13.  [_ph(n)] and [_expand_in_placeholders(n)] give the same text; it holds
    [n] placeholders for a positive [n] and is empty otherwise.  Every chunk
    [_chunks] yields for a positive size is therefore turned into a
    non-empty [IN] list with one placeholder per element of the chunk. *)
Theorem placeholders_match_chunks {A} (xs : list A) (size : Z) (n : Z) :
  TeamOncall._expand_in_placeholders n = ServiceOncall._ph n ∧
  placeholders (ServiceOncall._ph n) = Z.to_nat n ∧
  (ServiceOncall._ph n = ""%string ↔ n ≤ 0) ∧
  (0 < size →
   ∃ cs, ServiceOncall._chunks xs size = Ok cs ∧
         ∀ c, c ∈ cs →
              ServiceOncall._ph (Z.of_nat (length c)) ≠ ""%string ∧
              placeholders (ServiceOncall._ph (Z.of_nat (length c))) =
                length c).
Proof.
  assert (∀ m, placeholders (ServiceOncall._ph m) = Z.to_nat m) as Hcount.
  { intros m. unfold ServiceOncall._ph.
    destruct (Z.to_nat m) as [|k]; [done|]. apply placeholders_replicate. }
  assert (∀ m, ServiceOncall._ph m = ""%string ↔ m ≤ 0) as Hempty.
  { intros m. split.
    - intros Hm. pose proof (Hcount m) as Hc. rewrite Hm in Hc.
      change (placeholders "") with 0%nat in Hc. lia.
    - intros Hm. unfold ServiceOncall._ph.
      by replace (Z.to_nat m) with 0%nat by lia. }
  split_and!; [done | apply Hcount | apply Hempty |].
  intros Hsize.
  destruct (chunks_partition_bounded (length xs) xs size Hsize)
    as (cs & Hcs & _ & Hall & _); [done|].
  exists cs. split; [done|]. intros c Hc.
  rewrite Forall_forall in Hall. destruct (Hall c Hc) as [Hne _]. split.
  - rewrite Hempty. destruct c; [done | simpl; lia].
  - rewrite Hcount. lia.
Qed.

Lemma placeholders_match_chunks_witness :
  ∃ cs, ServiceOncall._chunks [7; 8; 9] 2 = Ok cs ∧
        ∀ c, c ∈ cs →
             ServiceOncall._ph (Z.of_nat (length c)) ≠ ""%string ∧
             placeholders (ServiceOncall._ph (Z.of_nat (length c))) = length c.
Proof.
  apply (placeholders_match_chunks [7; 8; 9] 2 0). lia.
Defined.

End placeholder_lists.
